(** * server.js: location-keyed cache with per-kind time-outs

    A shallow embedding of [server.js].  The program is an Express server
    whose route callbacks look a location up in PostgreSQL tables, answer
    from the table when the stored rows are young enough, and otherwise
    call an outside provider over HTTP and store what it returns.

    What is embedded, and how:
    - JSON values (payloads, constructed records, rows, responses) are the
      type [Json]; JavaScript objects keep their insertion order, so an
      object is an association list.
    - The database is a finite map from table names to tables; a table is
      the list of its rows in heap order plus the next value of its serial
      [id] column.
    - A promise chain is a computation in the monad [M]: it threads the
      [World] (database, outstanding faults, network oracle, clock,
      console, responses sent) and either resolves or rejects.  The
      [pg] client runs its queries first-in first-out, so queries take
      effect in the order they are issued; a promise that nobody awaits
      ([spawn]) still has its effect, only its outcome is dropped. *)

From Stdlib Require Import ZArith Ascii String List Bool Lia.
From stdpp Require Import base strings list gmap pretty.

Local Open Scope string_scope.
Local Open Scope Z_scope.
Local Open Scope list_scope.
Local Set Warnings "-register-all".

(** ** JSON values *)

Inductive Json : Type :=
| JUndefined
| JNull
| JBool (b : bool)
| JNum (z : Z)              (* an integral number *)
| JReal (text : string)     (* any other number, carried by its printed text:
                               the program only copies and prints these *)
| JStr (s : string)
| JArr (items : list Json)
| JObj (fields : list (string * Json)).

(** Errors a promise can reject with (or a callback can throw). *)
Inductive JsError : Type :=
| TypeError                      (* property read on undefined/null, call of a non-function *)
| HttpError (url : string)       (* superagent.get(url) rejected *)
| StoreError                     (* client.query rejected *)
| Thrown (v : Json).             (* throw <value> *)

Inductive Result (A : Type) : Type :=
| Resolved (a : A)
| Rejected (e : JsError).
Arguments Resolved {A} a.
Arguments Rejected {A} e.

(** ** The database *)

Definition Row : Type := list (string * Json).

Record Table : Type := mkTable {
  rows : list Row;      (* heap order *)
  next_id : Z           (* next value of the serial id column *)
}.

(** The three statement shapes of the program. *)
Inductive Query : Type :=
| Select (table column : string) (param : Json)
    (* SELECT * FROM table WHERE column=$1; *)
| Insert (table : string) (columns : list string) (values : list Json)
    (* INSERT INTO table (columns) VALUES ($1, ..) RETURNING id; *)
| Delete (table column : string) (value : Z).
    (* DELETE FROM table WHERE column=value *)

(** [obj.name] on the fields of an object: the value of the field, or
    undefined. *)
Fixpoint field (name : string) (fs : list (string * Json)) : Json :=
  match fs with
  | [] => JUndefined
  | (k, v) :: fs' => if String.eqb k name then v else field name fs'
  end.

(** SQL equality of a stored value and a statement parameter, for the two
    parameter types the program passes: an integer id and a text. *)
Definition sql_eqb (stored param : Json) : bool :=
  match stored, param with
  | JNum a, JNum b => Z.eqb a b
  | JStr a, JStr b => String.eqb a b
  | _, _ => false
  end.

Definition matches (column : string) (param : Json) (r : Row) : bool :=
  sql_eqb (field column r) param.

(** Modelled from the spec: the tables' declarations (the SQL schema is not
    among the sources).  Every table has a serial [id] column, location ids
    are integers (spec 3: "a persisted integer id"), and a row is read back
    with the values it was inserted with (spec 6, findByLocation and
    insert).  A statement on a table that does not exist, or an INSERT whose
    value count differs from its column count, is an error. *)
Definition exec_query (q : Query) (s : gmap string Table)
  : option (list Row * gmap string Table) :=
  match q with
  | Select t c p =>
      tb ← s !! t;
      Some (List.filter (matches c p) (rows tb), s)
  | Insert t cols vals =>
      tb ← s !! t;
      if Nat.eqb (length cols) (length vals) then
        let r := ("id", JNum (next_id tb)) :: combine cols vals in
        Some ([[("id", JNum (next_id tb))]],
              <[t := mkTable (rows tb ++ [r]) (next_id tb + 1)]> s)
      else None
  | Delete t c v =>
      tb ← s !! t;
      Some ([], <[t := mkTable
                   (List.filter (λ r, negb (matches c (JNum v) r)) (rows tb))
                   (next_id tb)]> s)
  end.

(** ** The world a request runs in *)

Record Request : Type := mkRequest {
  url : string;
  authorization : option string     (* .set('Authorization', ..) *)
}.

Inductive LogEntry : Type :=
| LogText (s : string)
| LogValue (v : Json)
| LogError (e : JsError).

(** What the request cannot change: the providers, the clock, the process
    environment and the host's printing of dates (which depends on its time
    zone). *)
Record Host : Type := mkHost {
  http : Request → option Json;     (* the providers: body of the answer, or failure *)
  clock : nat → Z;                  (* value of the n-th reading of Date.now() *)
  env : gmap string string;         (* process.env *)
  dateOfEpochSeconds : Json → string;
    (* t ↦ new Date(t * 1000).toDateString() *)
  dateOfLocalText : Json → string
    (* s ↦ new Date(Date.parse(s)).toDateString() *)
}.

Record World : Type := mkWorld {
  host : Host;
  store : gmap string Table;        (* the database behind [client] *)
  faults : list bool;               (* one flag per coming query: true = it fails *)
  calls : list Request;             (* provider calls issued so far *)
  reads : nat;                      (* readings of Date.now() so far *)
  console : list LogEntry;          (* console.log / console.error *)
  sent : list Json                  (* response.send *)
}.

Definition set_store (s : gmap string Table) (w : World) : World :=
  mkWorld (host w) s (faults w) (calls w) (reads w) (console w) (sent w).
Definition set_faults (f : list bool) (w : World) : World :=
  mkWorld (host w) (store w) f (calls w) (reads w) (console w) (sent w).
Definition add_call (r : Request) (w : World) : World :=
  mkWorld (host w) (store w) (faults w) (calls w ++ [r]) (reads w) (console w) (sent w).
Definition tick (w : World) : World :=
  mkWorld (host w) (store w) (faults w) (calls w) (S (reads w)) (console w) (sent w).
Definition add_log (l : LogEntry) (w : World) : World :=
  mkWorld (host w) (store w) (faults w) (calls w) (reads w) (console w ++ [l]) (sent w).
Definition add_sent (v : Json) (w : World) : World :=
  mkWorld (host w) (store w) (faults w) (calls w) (reads w) (console w) (sent w ++ [v]).

(** ** Promise chains *)

Definition M (A : Type) : Type := World → Result A * World.

Global Instance M_ret : MRet M := λ A a w, (Resolved a, w).
Global Instance M_bind : MBind M := λ A B f m w,
  match m w with
  | (Resolved a, w') => f a w'
  | (Rejected e, w') => (Rejected e, w')
  end.

(** [p.catch(h)] *)
Definition catch {A} (m : M A) (h : JsError → M A) : M A := λ w,
  match m w with
  | (Resolved a, w') => (Resolved a, w')
  | (Rejected e, w') => h e w'
  end.

(** A promise that is started and not awaited: its effects happen, its
    outcome (value or rejection) is dropped. *)
Definition spawn {A} (m : M A) : M unit := λ w, (Resolved tt, snd (m w)).

Definition throw {A} (e : JsError) : M A := λ w, (Rejected e, w).

Definition the_host : M Host := λ w, (Resolved (host w), w).

Definition Date_now : M Z := λ w, (Resolved (clock (host w) (reads w)), tick w).

Definition console_log (l : LogEntry) : M unit := λ w, (Resolved tt, add_log l w).

Definition response_send (v : Json) : M unit := λ w, (Resolved tt, add_sent v w).

(** [`${process.env.NAME}`] *)
Definition process_env (h : Host) (name : string) : string :=
  default "undefined" (env h !! name).

(** [superagent.get(url)], with the header set on it if any.  The promise
    resolves with the answer, of which the program reads the [body] only:
    a [result] below stands for [result.body]. *)
Definition superagent_get (r : Request) : M Json := λ w,
  match http (host w) r with
  | Some body => (Resolved body, add_call r w)
  | None => (Rejected (HttpError (url r)), add_call r w)
  end.

(** [client.query(SQL, values)]: the next fault flag is consumed; the
    statement fails when the flag is set or the statement is in error. *)
Definition client_query (q : Query) : M (list Row) := λ w,
  let w1 := set_faults (tail (faults w)) w in
  match head (faults w) with
  | Some true => (Rejected StoreError, w1)
  | _ =>
      match exec_query q (store w) with
      | Some (rs, s') => (Resolved rs, set_store s' w1)
      | None => (Rejected StoreError, w1)
      end
  end.

(** ** JavaScript on JSON values *)

(** [v.name], for the property names this program reads (none of them is a
    method or an accessor of a primitive's prototype, [length] apart). *)
Definition prop (name : string) (v : Json) : M Json :=
  match v with
  | JUndefined | JNull => throw TypeError
  | JObj fs => mret (field name fs)
  | JArr xs => mret (if String.eqb name "length"
                     then JNum (Z.of_nat (length xs)) else JUndefined)
  | JStr s => mret (if String.eqb name "length"
                    then JNum (Z.of_nat (String.length s)) else JUndefined)
  | _ => mret JUndefined
  end.

(** [v[0]] *)
Definition index0 (v : Json) : M Json :=
  match v with
  | JUndefined | JNull => throw TypeError
  | JArr xs => mret (List.hd JUndefined xs)
  | JStr (String c _) => mret (JStr (String c EmptyString))
  | JObj fs => mret (field "0" fs)
  | _ => mret JUndefined
  end.

(** [!v] *)
Definition falsy (v : Json) : bool :=
  match v with
  | JUndefined | JNull | JBool false | JNum 0 | JStr EmptyString => true
  | _ => false
  end.

(** [`${v}`] *)
Fixpoint to_string (v : Json) : string :=
  match v with
  | JUndefined => "undefined"
  | JNull => "null"
  | JBool true => "true"
  | JBool false => "false"
  | JNum z => pretty z
  | JReal t => t
  | JStr s => s
  | JArr xs =>
      (fix join (l : list Json) : string :=
         match l with
         | [] => ""
         | x :: l' =>
             let e := match x with
                      | JUndefined | JNull => ""
                      | _ => to_string x
                      end in
             match l' with [] => e | _ => e +:+ "," +:+ join l' end
         end) xs
  | JObj _ => "[object Object]"
  end.

(** [Object.values(o)] of an object *)
Definition Object_values (o : Json) : list Json :=
  match o with
  | JObj fs => map snd fs
  | _ => []
  end.

(** [o.name = v] on an object: the field is replaced in place, or added
    last. *)
Fixpoint set_field (name : string) (v : Json) (fs : list (string * Json))
  : list (string * Json) :=
  match fs with
  | [] => [(name, v)]
  | (k, x) :: fs' =>
      if String.eqb k name then (k, v) :: fs' else (k, x) :: set_field name v fs'
  end.

(** [xs.map(f)]: the callbacks run in order; the first that throws ends
    the map, what the earlier ones did stays done. *)
Fixpoint mapM {A B} (f : A → M B) (l : list A) : M (list B) :=
  match l with
  | [] => mret []
  | x :: l' => y ← f x; ys ← mapM f l'; mret (y :: ys)
  end.

Definition js_map (v : Json) (f : Json → M Json) : M Json :=
  match v with
  | JArr xs => ys ← mapM f xs; mret (JArr ys)
  | _ => throw TypeError
  end.

(** A JavaScript number as the program's arithmetic sees it: [None] is
    NaN. *)
Definition digit_of (c : ascii) : option Z :=
  let n := Z.of_nat (nat_of_ascii c) in
  if Z.leb 48 n && Z.leb n 57 then Some (n - 48) else None.

Fixpoint digits_value (acc : Z) (s : string) : option Z :=
  match s with
  | EmptyString => Some acc
  | String c s' => d ← digit_of c; digits_value (10 * acc + d) s'
  end.

(** ToNumber, as far as the program needs it: [created_at] is written as
    an integral [Date.now()].  Of the texts, the plain digit strings are
    read (this is how [pg] hands out a BIGINT); other spellings of a number
    in a text, non-integral numbers and arrays are outside the embedding and
    read as NaN. *)
Definition to_number (v : Json) : option Z :=
  match v with
  | JNum z => Some z
  | JNull => Some 0
  | JBool b => Some (if b then 1 else 0)
  | JStr s => digits_value 0 s
  | _ => None
  end.

(** [a - b] with [a] a number already *)
Definition js_sub (a : Z) (b : Json) : option Z :=
  z ← to_number b; Some (a - z).

(** [a > t]: false when [a] is NaN *)
Definition js_gt (a : option Z) (t : Z) : bool :=
  match a with
  | Some x => Z.ltb t x
  | None => false
  end.

(** ** The program *)

Inductive Kind : Type := Weather | Events | Movies | Yelp.

Definition timeouts (k : Kind) : Z :=
  match k with
  | Weather => 15 * 1000
  | Events => 60 * 60 * 1000
  | Movies => 60 * 60 * 24 * 1000
  | Yelp => 60 * 60 * 4 * 1000
  end.

Definition tableName (k : Kind) : string :=
  match k with
  | Weather => "weathers"
  | Events => "events"
  | Movies => "movies"
  | Yelp => "yelps"
  end.

(** [request.query.data] of the four resource routes: the location the
    client got from [/location].  The id is the integer of the locations
    table; the other fields arrive as texts of the query string. *)
Record Location : Type := mkLocation {
  id : Z;
  search_query : string;
  formatted_query : string;
  latitude : string;
  longitude : string
}.

(** *** Constructor functions *)

Definition new_Location (query : string) (geoData : Json) : M Json :=
  formatted_address ← prop "formatted_address" geoData;
  geometry ← prop "geometry" geoData;
  location ← prop "location" geometry;
  lat ← prop "lat" location;
  geometry' ← prop "geometry" geoData;
  location' ← prop "location" geometry';
  lng ← prop "lng" location';
  mret (JObj [("search_query", JStr query);
              ("formatted_query", formatted_address);
              ("latitude", lat);
              ("longitude", lng)]).

Definition new_Weather (day : Json) : M Json :=
  summary ← prop "summary" day;
  time ← prop "time" day;
  h ← the_host;
  created_at ← Date_now;
  mret (JObj [("forecast", summary);
              ("time", JStr (dateOfEpochSeconds h time));
              ("created_at", JNum created_at)]).

Definition new_Events (data : Json) : M Json :=
  start ← prop "start" data;
  local ← prop "local" start;
  h ← the_host;
  let newDate := JStr (dateOfLocalText h local) in
  link ← prop "url" data;
  name ← prop "name" data;
  text ← prop "text" name;
  summary ← prop "summary" data;
  created_at ← Date_now;
  mret (JObj [("link", link);
              ("name", text);
              ("event_date", newDate);
              ("summary", summary);
              ("created_at", JNum created_at)]).

Definition new_Movies (data : Json) : M Json :=
  title ← prop "title" data;
  release_date ← prop "release_date" data;
  vote_count ← prop "vote_count" data;
  vote_average ← prop "vote_average" data;
  popularity ← prop "popularity" data;
  overview ← prop "overview" data;
  poster_path ← prop "poster_path" data;
  created_at ← Date_now;
  mret (JObj [("title", title);
              ("released_on", release_date);
              ("total_votes", vote_count);
              ("average_votes", vote_average);
              ("popularity", popularity);
              ("overview", overview);
              ("image_url",
               JStr ("https://image.tmdb.org/t/p/original" +:+ to_string poster_path));
              ("created_at", JNum created_at)]).

Definition new_Yelp (data : Json) : M Json :=
  name ← prop "name" data;
  rating ← prop "rating" data;
  price ← prop "price" data;
  url ← prop "url" data;
  image_url ← prop "image_url" data;
  created_at ← Date_now;
  mret (JObj [("name", name);
              ("rating", rating);
              ("price", price);
              ("url", url);
              ("image_url", image_url);
              ("created_at", JNum created_at)]).

Definition construct (k : Kind) : Json → M Json :=
  match k with
  | Weather => new_Weather
  | Events => new_Events
  | Movies => new_Movies
  | Yelp => new_Yelp
  end.

(** *** Helper functions *)

Definition errorObj : Json :=
  JObj [("status", JNum 500); ("responseText", JStr "Sorry something went wrong")].

Definition errorMessage : M Json :=
  console_log (LogValue errorObj);; mret errorObj.

Record Handler : Type := mkHandler {
  location : Location;
  handler_tableName : string;
  cacheHit : list Row → M unit;
  cacheMiss : M unit
}.

Definition lookup (handler : Handler) : M Json :=
  catch
    (result ← client_query
       (Select (handler_tableName handler) "location_id" (JNum (id (location handler))));
     (if Nat.ltb 0 (length result)
      then cacheHit handler result
      else cacheMiss handler);;
     mret JUndefined)
    (λ _, errorMessage).

Definition deleteByLocationId (table : string) (location_id : Z) : M (list Row) :=
  client_query (Delete table "location_id" location_id).

(** *** Location *)

Record LocationHandler : Type := mkLocationHandler {
  query : string;
  location_cacheHit : list Row → M unit;
  location_cacheMiss : M unit
}.

Definition Location_lookup (handler : LocationHandler) : M Json :=
  catch
    (results ← client_query (Select "locations" "search_query" (JStr (query handler)));
     (if Nat.ltb 0 (length results)
      then location_cacheHit handler results
      else location_cacheMiss handler);;
     mret JUndefined)
    (λ e, console_log (LogError e);; mret JUndefined).

Definition Location_save (this : Json) : M (list Row) :=
  client_query
    (Insert "locations"
       ["search_query"; "formatted_query"; "latitude"; "longitude"]
       (Object_values this)).

Definition geocode_url (h : Host) (query : string) : string :=
  "https://maps.googleapis.com/maps/api/geocode/json?address=" +:+ query
  +:+ "&key=" +:+ process_env h "GEOCODE_API_KEY".

Definition Location_fetchLocation (query : string) : M Json :=
  h ← the_host;
  result ← superagent_get (mkRequest (geocode_url h query) None);
  results ← prop "results" result;
  len ← prop "length" results;
  if falsy len then throw (Thrown (JStr "No data"))
  else
    geoData ← index0 results;
    location ← new_Location query geoData;
    result ← Location_save location;
    new_id ← prop "id" (JObj (List.hd [] result));
    mret (JObj (set_field "id" new_id
                  match location with JObj fs => fs | _ => [] end)).

(** *** The four resource kinds *)

(** The column list of [Kind.prototype.save]'s INSERT. *)
Definition columns (k : Kind) : list string :=
  match k with
  | Weather => ["forecast"; "time"; "created_at"; "location_id"]
  | Events => ["link"; "name"; "event_date"; "summary"; "created_at"; "location_id"]
  | Movies => ["title"; "released_on"; "total_votes"; "average_votes";
               "popularity"; "overview"; "image_url"; "created_at"; "location_id"]
  | Yelp => ["name"; "rating"; "price"; "url"; "image_url"; "created_at";
             "location_id"]
  end.

(** [summary.save(id)] *)
Definition save (k : Kind) (this : Json) (id : Z) : M (list Row) :=
  let values := Object_values this ++ [JNum id] in
  client_query (Insert (tableName k) (columns k) values).

(** The callback every [fetch] maps over the provider's items:
    [x => { const summary = new Kind(x); summary.save(location.id); return summary; }] *)
Definition summarize (k : Kind) (location : Location) (x : Json) : M Json :=
  summary ← construct k x;
  spawn (save k summary (id location));;
  mret summary.

Definition Weather_url (h : Host) (location : Location) : string :=
  "https://api.darksky.net/forecast/" +:+ process_env h "WEATHER_API_KEY" +:+ "/"
  +:+ latitude location +:+ "," +:+ longitude location.

Definition Events_url (h : Host) (location : Location) : string :=
  "https://www.eventbriteapi.com/v3/events/search?token="
  +:+ process_env h "EVENTBRITE_API_KEY" +:+ "&location.address="
  +:+ formatted_query location.

Definition Movies_url (h : Host) (location : Location) : string :=
  "https://api.themoviedb.org/3/movie/now_playing?api_key="
  +:+ process_env h "MOVIE_API_KEY" +:+ "&language=en-US&page=1".

Definition Yelp_url (h : Host) (location : Location) : string :=
  "https://api.yelp.com/v3/businesses/search?location=" +:+ search_query location.

Definition Weather_fetch (location : Location) : M Json :=
  h ← the_host;
  result ← superagent_get (mkRequest (Weather_url h location) None);
  daily ← prop "daily" result;
  data ← prop "data" daily;
  js_map data (summarize Weather location).

Definition Events_fetch (location : Location) : M Json :=
  console_log (LogText "here in event fetch");;
  h ← the_host;
  result ← superagent_get (mkRequest (Events_url h location) None);
  events ← prop "events" result;
  js_map events (summarize Events location).

Definition Movies_fetch (location : Location) : M Json :=
  console_log (LogText "here in movie fetch");;
  h ← the_host;
  catch
    (result ← superagent_get (mkRequest (Movies_url h location) None);
     results ← prop "results" result;
     js_map results (summarize Movies location))
    (λ error, console_log (LogError error);; mret JUndefined).

Definition Yelp_fetch (location : Location) : M Json :=
  console_log (LogText "here in yelp");;
  h ← the_host;
  catch
    (result ← superagent_get
       (mkRequest (Yelp_url h location)
          (Some ("Bearer " +:+ process_env h "YELP_API_KEY")));
     businesses ← prop "businesses" result;
     js_map businesses (summarize Yelp location))
    (λ error, console_log (LogError error);; mret JUndefined).

Definition fetch (k : Kind) : Location → M Json :=
  match k with
  | Weather => Weather_fetch
  | Events => Events_fetch
  | Movies => Movies_fetch
  | Yelp => Yelp_fetch
  end.

(** *** Route callbacks *)

Definition searchCoords (data : string) : M Json :=
  Location_lookup {|
    query := data;
    location_cacheHit := λ results,
      console_log (LogText "Got the data Locations");;
      response_send (JObj (List.hd [] results));
    location_cacheMiss :=
      console_log (LogText "Fetching Locations");;
      catch
        (results ← Location_fetchLocation data; response_send results)
        (λ e, console_log (LogError e))
  |}.

Definition kindName (k : Kind) : string :=
  match k with
  | Weather => "weather"
  | Events => "events"
  | Movies => "movies"
  | Yelp => "yelp"
  end.

Definition fetchingName (k : Kind) : string :=
  match k with
  | Weather => "Weather"
  | Events => "Event"
  | Movies => "Movies"
  | Yelp => "Yelp"
  end.

(** [getWeather], [getEvents], [getMovies] and [getYelp] are the same text
    up to the kind; [resourceHandler k data] is the handler object each of
    them builds.  On the stale branch the statement [this.cacheMiss;] reads
    the property and drops it: nothing is called. *)
Definition resourceHandler (k : Kind) (data : Location) : Handler := {|
  location := data;
  handler_tableName := tableName k;
  cacheHit := λ result,
    now ← Date_now;
    let ageOfResults := js_sub now (field "created_at" (List.hd [] result)) in
    if js_gt ageOfResults (timeouts k) then
      console_log (LogText (kindName k +:+ " cache was invalid"));;
      spawn (deleteByLocationId (tableName k) (id data));;
      mret tt
    else
      console_log (LogText (kindName k +:+ " cache was valid"));;
      response_send (JArr (map JObj result));
  cacheMiss :=
    console_log (LogText ("Fetching " +:+ fetchingName k));;
    catch
      (results ← fetch k data; response_send results)
      (λ e, console_log (LogError e))
|}.

Definition getResource (k : Kind) (data : Location) : M Json :=
  lookup (resourceHandler k data).

Definition getWeather : Location → M Json := getResource Weather.
Definition getEvents : Location → M Json := getResource Events.
Definition getMovies : Location → M Json := getResource Movies.
Definition getYelp : Location → M Json := getResource Yelp.

(** ** Vocabulary of the statements *)

(** The provider call a kind's [fetch] issues for a location. *)
Definition request_of (k : Kind) (h : Host) (location : Location) : Request :=
  match k with
  | Weather => mkRequest (Weather_url h location) None
  | Events => mkRequest (Events_url h location) None
  | Movies => mkRequest (Movies_url h location) None
  | Yelp => mkRequest (Yelp_url h location)
              (Some ("Bearer " +:+ process_env h "YELP_API_KEY"))
  end.

(** The part of the provider's answer a kind's [fetch] maps over. *)
Definition items_of (k : Kind) (body : Json) : M Json :=
  match k with
  | Weather => daily ← prop "daily" body; prop "data" daily
  | Events => prop "events" body
  | Movies => prop "results" body
  | Yelp => prop "businesses" body
  end.

(** The keys of the record a kind's constructor builds, in order. *)
Definition fields (k : Kind) : list string :=
  match k with
  | Weather => ["forecast"; "time"; "created_at"]
  | Events => ["link"; "name"; "event_date"; "summary"; "created_at"]
  | Movies => ["title"; "released_on"; "total_votes"; "average_votes";
               "popularity"; "overview"; "image_url"; "created_at"]
  | Yelp => ["name"; "rating"; "price"; "url"; "image_url"; "created_at"]
  end.

Definition fields_of (o : Json) : list (string * Json) :=
  match o with
  | JObj fs => fs
  | _ => []
  end.

Definition keys (o : Json) : list string := map fst (fields_of o).

(** The rows the SELECT of [lookup] finds for a location. *)
Definition batch (location_id : Z) (tb : Table) : list Row :=
  List.filter (matches "location_id" (JNum location_id)) (rows tb).

(** The table after the DELETE of [deleteByLocationId]. *)
Definition evicted (location_id : Z) (tb : Table) : Table :=
  mkTable (List.filter (λ r, negb (matches "location_id" (JNum location_id) r)) (rows tb))
          (next_id tb).

(** The row an accepted [save] of a record adds. *)
Definition saved_row (n location_id : Z) (record : Json) : Row :=
  ("id", JNum n) :: fields_of record ++ [("location_id", JNum location_id)].

(** The table after the [save]s of the records [ys], one fault flag per
    [save]: a flagged one is refused and leaves the table as it is. *)
Fixpoint persist (location_id : Z) (fs : list bool) (ys : list Json) (tb : Table)
  : Table :=
  match ys with
  | [] => tb
  | y :: ys' =>
      persist location_id (tail fs) ys'
        (match head fs with
         | Some true => tb
         | _ => mkTable (rows tb ++ [saved_row (next_id tb) location_id y])
                        (next_id tb + 1)
         end)
  end.

(** No fault among the next [n] queries. *)
Definition healthy (n : nat) (fs : list bool) : Prop :=
  Forall (λ b, b = false) (take n fs).

(** The rows [n], [n+1], .. that the records get when every [save] is
    accepted. *)
Fixpoint saved_rows (n location_id : Z) (ys : list Json) : list Row :=
  match ys with
  | [] => []
  | y :: ys' => saved_row n location_id y :: saved_rows (n + 1) location_id ys'
  end.

(** A chain keeps a relation between the world before and the world
    after. *)
Definition keeps (R : World → World → Prop) {A} (m : M A) : Prop :=
  ∀ w, R w (snd (m w)).

(** Relations a chain may keep: nothing sent, no provider called, every
    table but one as it is. *)
Definition same_sent (w w' : World) : Prop := sent w' = sent w.
Definition same_calls (w w' : World) : Prop := calls w' = calls w.
Definition same_but (t : string) (w w' : World) : Prop :=
  ∀ t', t' ≠ t → store w' !! t' = store w !! t'.

(** The part of a location that a kind's provider call is built from. *)
Definition location_part (k : Kind) (location : Location) : string :=
  match k with
  | Weather => latitude location +:+ "," +:+ longitude location
  | Events => formatted_query location
  | Movies => ""
  | Yelp => search_query location
  end.

(** The keys of each object of an answer that is an array. *)
Definition response_keys (v : Json) : list (list string) :=
  match v with
  | JArr xs => map keys xs
  | _ => []
  end.

(** ** Vocabulary of the further properties *)

Definition nullish (v : Json) : bool :=
  match v with
  | JUndefined | JNull => true
  | _ => false
  end.

(** [v.name] of a value that is neither undefined nor null. *)
Definition peek (name : string) (v : Json) : Json :=
  match v with
  | JObj fs => field name fs
  | JArr xs => if String.eqb name "length"
               then JNum (Z.of_nat (length xs)) else JUndefined
  | JStr s => if String.eqb name "length"
              then JNum (Z.of_nat (String.length s)) else JUndefined
  | _ => JUndefined
  end.

(** The provider items a kind's constructor goes through: the item itself
    must not be undefined or null, and for an event neither its [start] nor
    its [name]. *)
Definition item_ok (k : Kind) (x : Json) : bool :=
  match k with
  | Events =>
      negb (nullish x) && negb (nullish (peek "start" x))
      && negb (nullish (peek "name" x))
  | _ => negb (nullish x)
  end.

(** The kinds whose [fetch] ends in a [.catch] of its own. *)
Definition swallows (k : Kind) : bool :=
  match k with
  | Movies | Yelp => true
  | _ => false
  end.

(** The world after the line a [fetch] logs on entry, if it logs one. *)
Definition announced (k : Kind) (w : World) : World :=
  match k with
  | Weather => w
  | Events => add_log (LogText "here in event fetch") w
  | Movies => add_log (LogText "here in movie fetch") w
  | Yelp => add_log (LogText "here in yelp") w
  end.

(** The columns of [Location.prototype.save]'s INSERT, which are the keys
    of the object [new Location] builds. *)
Definition location_fields : list string :=
  ["search_query"; "formatted_query"; "latitude"; "longitude"].

(** The rows the SELECT of [Location.lookup] finds for a search text. *)
Definition found (text : string) (tb : Table) : list Row :=
  List.filter (matches "search_query" (JStr text)) (rows tb).

(** The records among [ys] whose [save] is accepted, one fault flag per
    [save]. *)
Fixpoint accepted (fs : list bool) (ys : list Json) : list Json :=
  match ys with
  | [] => []
  | y :: ys' =>
      match head fs with
      | Some true => accepted (tail fs) ys'
      | _ => y :: accepted (tail fs) ys'
      end
  end.

(** The record a kind's constructor builds from an item it accepts, on a
    host and at a clock reading: each field is the key of the item the
    constructor reads for it, undefined when the item lacks it. *)
Definition built (k : Kind) (h : Host) (now : Z) (x : Json) : Json :=
  match k with
  | Weather =>
      JObj [("forecast", peek "summary" x);
            ("time", JStr (dateOfEpochSeconds h (peek "time" x)));
            ("created_at", JNum now)]
  | Events =>
      JObj [("link", peek "url" x);
            ("name", peek "text" (peek "name" x));
            ("event_date", JStr (dateOfLocalText h (peek "local" (peek "start" x))));
            ("summary", peek "summary" x);
            ("created_at", JNum now)]
  | Movies =>
      JObj [("title", peek "title" x);
            ("released_on", peek "release_date" x);
            ("total_votes", peek "vote_count" x);
            ("average_votes", peek "vote_average" x);
            ("popularity", peek "popularity" x);
            ("overview", peek "overview" x);
            ("image_url",
             JStr ("https://image.tmdb.org/t/p/original"
                   +:+ to_string (peek "poster_path" x)));
            ("created_at", JNum now)]
  | Yelp =>
      JObj [("name", peek "name" x);
            ("rating", peek "rating" x);
            ("price", peek "price" x);
            ("url", peek "url" x);
            ("image_url", peek "image_url" x);
            ("created_at", JNum now)]
  end.

(** [v[0]] of a value that is neither undefined nor null. *)
Definition first_of (v : Json) : Json :=
  match v with
  | JArr xs => List.hd JUndefined xs
  | JStr (String c _) => JStr (String c EmptyString)
  | JObj fs => field "0" fs
  | _ => JUndefined
  end.

(** The fields [new Location(text, geoData)] sets, in order. *)
Definition located (text : string) (geoData : Json) : list (string * Json) :=
  [("search_query", JStr text);
   ("formatted_query", peek "formatted_address" geoData);
   ("latitude", peek "lat" (peek "location" (peek "geometry" geoData)));
   ("longitude", peek "lng" (peek "location" (peek "geometry" geoData)))].

(** The four courses a resource request can take: the SELECT fails, the
    batch found is served, the batch found is deleted, or nothing is found
    and the miss handler runs. *)
Inductive Course (k : Kind) (data : Location) (w : World) : Prop :=
| Refused :
    getResource k data w =
      (Resolved errorObj,
       add_log (LogValue errorObj) (set_faults (tail (faults w)) w)) →
    Course k data w
| Hit tb r rest :
    store w !! tableName k = Some tb →
    batch (id data) tb = r :: rest →
    getResource k data w =
      (Resolved JUndefined,
       add_sent (JArr (map JObj (r :: rest)))
         (add_log (LogText (kindName k +:+ " cache was valid"))
            (tick (set_faults (tail (faults w)) w)))) →
    Course k data w
| Stale tb :
    store w !! tableName k = Some tb →
    getResource k data w =
      (Resolved JUndefined,
       snd (deleteByLocationId (tableName k) (id data)
              (add_log (LogText (kindName k +:+ " cache was invalid"))
                 (tick (set_faults (tail (faults w)) w))))) →
    Course k data w
| Miss tb :
    store w !! tableName k = Some tb →
    batch (id data) tb = [] →
    getResource k data w =
      (Resolved JUndefined,
       snd (cacheMiss (resourceHandler k data) (set_faults (tail (faults w)) w))) →
    Course k data w.

(** ** Sample data

    A host whose weather provider knows Seattle and whose geocoder finds
    nothing for ["@@invalid@@"]; every other call fails.  No key is set in
    the environment, so the keys print as [undefined]. *)

Definition seattle : Location :=
  mkLocation 7 "seattle" "Seattle, WA, USA" "47.6062" "-122.3321".

Definition portland : Location :=
  mkLocation 8 "portland" "Portland, OR, USA" "45.5152" "-122.6784".

Definition forecast_body : Json :=
  JObj [("daily",
         JObj [("data",
                JArr [JObj [("summary", JStr "Clear"); ("time", JNum 1704067200)]])])].

Definition no_results_body : Json :=
  JObj [("results", JArr []); ("status", JStr "ZERO_RESULTS")].

Definition t0 : Z := 1704067200000.

Definition quiet_host : Host := {|
  http := λ r,
    if String.eqb (url r)
         "https://api.darksky.net/forecast/undefined/47.6062,-122.3321"
    then Some forecast_body
    else if String.eqb (url r)
         "https://maps.googleapis.com/maps/api/geocode/json?address=@@invalid@@&key=undefined"
    then Some no_results_body
    else None;
  clock := λ n, t0 + Z.of_nat n;
  env := ∅;
  dateOfEpochSeconds := λ _, "Mon Jan 01 2024";
  dateOfLocalText := λ _, "Mon Jan 01 2024"
|}.

Definition empty_table : Table := mkTable [] 1.

Definition empty_store : gmap string Table :=
  <["locations" := empty_table]>
    (<["weathers" := empty_table]>
       (<["events" := empty_table]>
          (<["movies" := empty_table]>
             (<["yelps" := empty_table]> ∅)))).

(** Nothing cached, nothing going wrong in the store. *)
Definition w_empty : World := mkWorld quiet_host empty_store [] [] 0 [] [].

(** The next query is refused. *)
Definition w_refused : World := mkWorld quiet_host empty_store [true] [] 0 [] [].

Definition clear_record (created_at : Z) : Json :=
  JObj [("forecast", JStr "Clear"); ("time", JStr "Mon Jan 01 2024");
        ("created_at", JNum created_at)].

Definition clear_row (created_at : Z) : Row :=
  [("id", JNum 1); ("forecast", JStr "Clear"); ("time", JStr "Mon Jan 01 2024");
   ("created_at", JNum created_at); ("location_id", JNum 7)].

Definition cached_table (created_at : Z) : Table := mkTable [clear_row created_at] 2.

(** One weather row for Seattle, created at the given time; the clock
    reads [t0]. *)
Definition w_cached (created_at : Z) : World :=
  mkWorld quiet_host (<["weathers" := cached_table created_at]> empty_store)
          [] [] 0 [] [].

(** A host that knows more: the geocoder finds Seattle and answers
    ["nowhere"] without a [results]; the events provider has nothing for
    Seattle; the weather provider's answer for Portland has a null between
    two days. *)

Definition clear_day : Json :=
  JObj [("summary", JStr "Clear"); ("time", JNum 1704067200)].

Definition seattle_geodata : Json :=
  JObj [("formatted_address", JStr "Seattle, WA, USA");
        ("geometry",
         JObj [("location",
                JObj [("lat", JReal "47.6062"); ("lng", JReal "-122.3321")])])].

Definition busy_host : Host := {|
  http := λ r,
    if String.eqb (url r)
         "https://maps.googleapis.com/maps/api/geocode/json?address=seattle&key=undefined"
    then Some (JObj [("results", JArr [seattle_geodata]); ("status", JStr "OK")])
    else if String.eqb (url r)
         "https://maps.googleapis.com/maps/api/geocode/json?address=nowhere&key=undefined"
    then Some (JObj [("error_message", JStr "denied")])
    else if String.eqb (url r)
         "https://www.eventbriteapi.com/v3/events/search?token=undefined&location.address=Seattle, WA, USA"
    then Some (JObj [("events", JArr [])])
    else if String.eqb (url r)
         "https://api.darksky.net/forecast/undefined/45.5152,-122.6784"
    then Some (JObj [("daily", JObj [("data", JArr [clear_day; JNull; clear_day])])])
    else None;
  clock := λ n, t0 + Z.of_nat n;
  env := ∅;
  dateOfEpochSeconds := λ _, "Mon Jan 01 2024";
  dateOfLocalText := λ _, "Mon Jan 01 2024"
|}.

Definition w_busy : World := mkWorld busy_host empty_store [] [] 0 [] [].

(** The SELECT is accepted, the query after it refused. *)
Definition w_deaf : World := mkWorld quiet_host empty_store [false; true] [] 0 [] [].

(** Seattle, resolved before. *)
Definition seattle_fields : list (string * Json) :=
  [("search_query", JStr "seattle"); ("formatted_query", JStr "Seattle, WA, USA");
   ("latitude", JReal "47.6062"); ("longitude", JReal "-122.3321")].

Definition seattle_row : Row := ("id", JNum 7) :: seattle_fields.

Definition w_located : World :=
  mkWorld quiet_host (<["locations" := mkTable [seattle_row] 8]> empty_store)
          [] [] 0 [] [].

(** ** Running a chain *)

Lemma run_bind {A B} (m : M A) (f : A → M B) (w : World) :
  (m ≫= f) w = match m w with
               | (Resolved a, w') => f a w'
               | (Rejected e, w') => (Rejected e, w')
               end.
Proof. reflexivity. Qed.

Lemma after_log {A} l (m : M A) (w : World) :
  (console_log l;; m) w = m (add_log l w).
Proof. reflexivity. Qed.

Lemma with_host {A} (f : Host → M A) (w : World) :
  (the_host ≫= f) w = f (host w) w.
Proof. reflexivity. Qed.

(** *** Frames

    A relation between the world before and the world after that every
    primitive step keeps, is kept by the whole of a [fetch] and of a route
    callback. *)
Section Frame.
Variable R : World → World → Prop.
Hypothesis R_refl : ∀ w, R w w.
Hypothesis R_trans : ∀ w1 w2 w3, R w1 w2 → R w2 w3 → R w1 w3.

Local Abbreviation keeps := (keeps R).

Lemma keeps_ret {A} (a : A) : keeps (mret a).
Proof. intros w. apply R_refl. Qed.

Lemma keeps_throw {A} (e : JsError) : keeps (@throw A e).
Proof. intros w. apply R_refl. Qed.

Lemma keeps_bind {A B} (m : M A) (f : A → M B) :
  keeps m → (∀ a, keeps (f a)) → keeps (m ≫= f).
Proof.
  intros Hm Hf w. rewrite run_bind. specialize (Hm w).
  destruct (m w) as [[a|e] w']; simpl in *; [|done].
  eapply R_trans; [exact Hm | apply Hf].
Qed.

Lemma keeps_catch {A} (m : M A) (h : JsError → M A) :
  keeps m → (∀ e, keeps (h e)) → keeps (catch m h).
Proof.
  intros Hm Hh w. unfold catch. specialize (Hm w).
  destruct (m w) as [[a|e] w']; simpl in *; [done|].
  eapply R_trans; [exact Hm | apply Hh].
Qed.

Lemma keeps_spawn {A} (m : M A) : keeps m → keeps (spawn m).
Proof. intros Hm w. apply Hm. Qed.

Lemma keeps_mapM {A B} (f : A → M B) (l : list A) :
  (∀ x, keeps (f x)) → keeps (mapM f l).
Proof.
  intros Hf. induction l as [|x l IH]; simpl.
  - apply keeps_ret.
  - apply keeps_bind; [apply Hf|]. intros y.
    apply keeps_bind; [apply IH|]. intros ys. apply keeps_ret.
Qed.

Lemma keeps_prop name v : keeps (prop name v).
Proof. destruct v; simpl; auto using keeps_ret, keeps_throw. Qed.

Lemma keeps_the_host : keeps the_host.
Proof. intros w. apply R_refl. Qed.

Hypothesis R_tick : ∀ w, R w (tick w).
Hypothesis R_log : ∀ l w, R w (add_log l w).
Hypothesis R_call : ∀ r w, R w (add_call r w).

Lemma keeps_Date_now : keeps Date_now.
Proof. intros w. apply R_tick. Qed.

Lemma keeps_console_log l : keeps (console_log l).
Proof. intros w. apply R_log. Qed.

Lemma keeps_superagent_get r : keeps (superagent_get r).
Proof.
  intros w. unfold superagent_get. destruct (http (host w) r); apply R_call.
Qed.

Ltac keeps_step :=
  match goal with
  | |- keeps (mret _) => apply keeps_ret
  | |- keeps (throw _) => apply keeps_throw
  | |- keeps the_host => apply keeps_the_host
  | |- keeps Date_now => apply keeps_Date_now
  | |- keeps (prop _ _) => apply keeps_prop
  | |- keeps (console_log _) => apply keeps_console_log
  | |- keeps (superagent_get _) => apply keeps_superagent_get
  | |- keeps (spawn _) => apply keeps_spawn
  | |- keeps (mapM _ _) => apply keeps_mapM; intros ?
  | |- keeps (catch _ _) => apply keeps_catch; [|intros ?]
  | |- keeps (_ ≫= _) => apply keeps_bind; [|intros ?]
  | |- keeps (if ?b then _ else _) => destruct b
  end.

Lemma keeps_construct k x : keeps (construct k x).
Proof.
  destruct k; simpl;
    unfold new_Weather, new_Events, new_Movies, new_Yelp; repeat keeps_step.
Qed.

(** What is left to ask of [R] is that the queries of the kind keep it. *)
Lemma keeps_fetch k data :
  (∀ vals, keeps (client_query (Insert (tableName k) (columns k) vals))) →
  keeps (fetch k data).
Proof.
  intros Hq.
  assert (Hs : ∀ x, keeps (summarize k data x)).
  { intros x. unfold summarize. keeps_step; [apply keeps_construct|].
    repeat keeps_step. apply Hq. }
  assert (Hmap : ∀ v, keeps (js_map v (summarize k data))).
  { intros v. destruct v; simpl; repeat keeps_step; apply Hs. }
  destruct k; simpl; unfold Weather_fetch, Events_fetch, Movies_fetch, Yelp_fetch;
    repeat keeps_step; apply Hmap.
Qed.

Lemma keeps_summaries k data v :
  (∀ vals, keeps (client_query (Insert (tableName k) (columns k) vals))) →
  keeps (js_map v (summarize k data)).
Proof.
  intros Hq. destruct v; simpl; repeat keeps_step.
  unfold summarize. keeps_step; [apply keeps_construct|].
  repeat keeps_step. apply Hq.
Qed.

End Frame.

(** *** Queries *)

Lemma client_query_refused q w :
  head (faults w) = Some true →
  client_query q w = (Rejected StoreError, set_faults (tail (faults w)) w).
Proof. intros H. unfold client_query. by rewrite H. Qed.

Lemma client_query_accepted q w :
  head (faults w) ≠ Some true →
  client_query q w =
    match exec_query q (store w) with
    | Some (rs, s') => (Resolved rs, set_store s' (set_faults (tail (faults w)) w))
    | None => (Rejected StoreError, set_faults (tail (faults w)) w)
    end.
Proof.
  intros H. unfold client_query.
  destruct (head (faults w)) as [[]|]; [congruence|done..].
Qed.

Lemma select_batch k data w tb :
  head (faults w) ≠ Some true →
  store w !! tableName k = Some tb →
  client_query (Select (tableName k) "location_id" (JNum (id data))) w =
    (Resolved (batch (id data) tb), set_faults (tail (faults w)) w).
Proof.
  intros Hf Ht. rewrite client_query_accepted by done. simpl. rewrite Ht. simpl.
  by destruct w.
Qed.

Lemma delete_batch k data w tb :
  store w !! tableName k = Some tb →
  store (snd (deleteByLocationId (tableName k) (id data) w)) =
    match head (faults w) with
    | Some true => store w
    | _ => <[tableName k := evicted (id data) tb]> (store w)
    end.
Proof.
  intros Ht. unfold deleteByLocationId, client_query. simpl. rewrite Ht. simpl.
  by destruct (head (faults w)) as [[]|].
Qed.

(** *** The three branches of a resource route *)

Lemma js_gt_fresh now v c t :
  to_number v = Some c → now - c ≤ t → js_gt (js_sub now v) t = false.
Proof. intros Hv Hle. unfold js_sub. rewrite Hv. simpl. lia. Qed.

Lemma js_gt_stale now v c t :
  to_number v = Some c → t < now - c → js_gt (js_sub now v) t = true.
Proof. intros Hv Hlt. unfold js_sub. rewrite Hv. simpl. lia. Qed.

Lemma getResource_hit k data w tb r rest :
  head (faults w) ≠ Some true →
  store w !! tableName k = Some tb →
  batch (id data) tb = r :: rest →
  js_gt (js_sub (clock (host w) (reads w)) (field "created_at" r)) (timeouts k) = false →
  getResource k data w =
    (Resolved JUndefined,
     add_sent (JArr (map JObj (r :: rest)))
       (add_log (LogText (kindName k +:+ " cache was valid"))
          (tick (set_faults (tail (faults w)) w)))).
Proof.
  intros Hf Ht Hb Hage. unfold getResource, lookup, catch. rewrite run_bind. simpl.
  rewrite (select_batch k data w tb Hf Ht), Hb. simpl.
  rewrite !run_bind. simpl. rewrite Hage. reflexivity.
Qed.

Lemma getResource_stale k data w tb r rest :
  head (faults w) ≠ Some true →
  store w !! tableName k = Some tb →
  batch (id data) tb = r :: rest →
  js_gt (js_sub (clock (host w) (reads w)) (field "created_at" r)) (timeouts k) = true →
  getResource k data w =
    (Resolved JUndefined,
     snd (deleteByLocationId (tableName k) (id data)
            (add_log (LogText (kindName k +:+ " cache was invalid"))
               (tick (set_faults (tail (faults w)) w))))).
Proof.
  intros Hf Ht Hb Hage. unfold getResource, lookup, catch. rewrite run_bind. simpl.
  rewrite (select_batch k data w tb Hf Ht), Hb. simpl.
  rewrite !run_bind. simpl. rewrite Hage. reflexivity.
Qed.

Lemma cacheMiss_resolves k data w :
  fst (cacheMiss (resourceHandler k data) w) = Resolved tt.
Proof.
  simpl. rewrite run_bind. simpl. unfold catch. rewrite run_bind.
  destruct (fetch k data _) as [[v|e] w']; reflexivity.
Qed.

Lemma getResource_miss k data w tb :
  head (faults w) ≠ Some true →
  store w !! tableName k = Some tb →
  batch (id data) tb = [] →
  getResource k data w =
    (Resolved JUndefined,
     snd (cacheMiss (resourceHandler k data) (set_faults (tail (faults w)) w))).
Proof.
  intros Hf Ht Hb. unfold getResource, lookup, catch. rewrite run_bind.
  cbn [handler_tableName location resourceHandler].
  rewrite (select_batch k data w tb Hf Ht), Hb.
  cbn [length Nat.ltb Nat.leb]. rewrite run_bind.
  pose proof (cacheMiss_resolves k data (set_faults (tail (faults w)) w)) as Hm.
  destruct (cacheMiss _ _) as [[[]|e] w'] eqn:E; simpl in Hm; [|discriminate].
  reflexivity.
Qed.

(** *** Constructors *)

Lemma prop_world name v w : snd (prop name v w) = w.
Proof. by destruct v. Qed.

(** One step of a chain that is known to have resolved. *)
Ltac resolved_step H :=
  match type of H with
  | (?m ≫= ?f) ?w = (Resolved _, _) =>
      let a := fresh "a" in let e := fresh "e" in
      let w1 := fresh "w" in let E := fresh "E" in
      rewrite run_bind in H;
      destruct (m w) as [[a|e] w1] eqn:E; [|discriminate H];
      try match type of E with
          | prop ?n ?v ?w0 = _ =>
              let P := fresh "P" in
              pose proof (prop_world n v w0) as P; rewrite E in P;
              simpl in P; subst w1
          end
  end.

Lemma construct_shape k x w y w' :
  construct k x w = (Resolved y, w') →
  keys y = fields k ∧ w' = tick w.
Proof.
  intros H. destruct k; simpl in H;
    unfold new_Weather, new_Events, new_Movies, new_Yelp in H;
    repeat resolved_step H;
    repeat match goal with
           | E : the_host _ = _ |- _ => inversion E; subst; clear E
           | E : Date_now _ = _ |- _ => inversion E; subst; clear E
           end;
    inversion H; subst; done.
Qed.

(** *** Saving *)

Lemma combine_fst_snd {A B} (l : list (A * B)) (a : A) (b : B) :
  combine (map fst l ++ [a]) (map snd l ++ [b]) = l ++ [(a, b)].
Proof. induction l as [|[x y] l IH]; simpl; [done|]. by rewrite IH. Qed.

Lemma columns_fields k : columns k = fields k ++ ["location_id"].
Proof. by destruct k. Qed.

Lemma fields_not_nil k : fields k ≠ [].
Proof. by destruct k. Qed.

Lemma record_is_object k y : keys y = fields k → y = JObj (fields_of y).
Proof.
  intros H. pose proof (fields_not_nil k) as Hn. rewrite <- H in Hn.
  unfold keys in Hn. by destruct y.
Qed.

Lemma insert_record k y location_id (s : gmap string Table) tb :
  keys y = fields k →
  s !! tableName k = Some tb →
  exec_query (Insert (tableName k) (columns k) (Object_values y ++ [JNum location_id])) s
  = Some ([[("id", JNum (next_id tb))]],
          <[tableName k := mkTable (rows tb ++ [saved_row (next_id tb) location_id y])
                             (next_id tb + 1)]> s).
Proof.
  intros Hk Ht. simpl. rewrite Ht. simpl.
  pose proof (record_is_object k y Hk) as Hy.
  destruct y; try discriminate Hy. clear Hy. unfold keys in Hk. simpl in *.
  rewrite columns_fields, <- Hk.
  rewrite !length_app, !length_map, Nat.eqb_refl.
  by rewrite combine_fst_snd.
Qed.

Lemma save_store k y location_id w tb :
  keys y = fields k →
  store w !! tableName k = Some tb →
  store (snd (save k y location_id w)) =
    <[tableName k := persist location_id (faults w) [y] tb]> (store w)
  ∧ faults (snd (save k y location_id w)) = tail (faults w)
  ∧ host (snd (save k y location_id w)) = host w.
Proof.
  intros Hk Ht. unfold save, client_query.
  rewrite (insert_record k y location_id (store w) tb Hk Ht). simpl.
  destruct (head (faults w)) as [[]|]; simpl; repeat split; try done.
  by rewrite insert_id.
Qed.

Lemma persist_cons location_id fs y ys tb :
  persist location_id fs (y :: ys) tb =
    persist location_id (tail fs) ys (persist location_id fs [y] tb).
Proof. reflexivity. Qed.

Lemma mapM_summarize k data xs : ∀ w ys w' tb,
  mapM (summarize k data) xs w = (Resolved ys, w') →
  store w !! tableName k = Some tb →
  store w' = <[tableName k := persist (id data) (faults w) ys tb]> (store w)
  ∧ faults w' = drop (length ys) (faults w)
  ∧ Forall (λ y, keys y = fields k) ys.
Proof.
  induction xs as [|x xs IH]; intros w ys w' tb H Ht.
  - inversion H; subst. simpl. rewrite insert_id by done. by rewrite drop_0.
  - simpl in H. resolved_step H. resolved_step H. inversion H; subst; clear H.
    unfold summarize in E. resolved_step E.
    apply construct_shape in E1 as [Hk ->].
    rewrite run_bind in E. simpl in E. inversion E; subst; clear E.
    destruct (save_store k a (id data) (tick w) tb Hk Ht) as (Hs & Hf & _).
    simpl in Hs, Hf.
    specialize (IH _ _ _ (persist (id data) (faults w) [a] tb) E0).
    destruct IH as (IHs & IHf & IHk).
    { rewrite Hs. apply lookup_insert_eq. }
    repeat split.
    + rewrite IHs, Hs, Hf, insert_insert_eq. by rewrite persist_cons.
    + rewrite IHf, Hf. destruct (faults w); simpl; [by rewrite drop_nil|done].
    + by constructor.
Qed.

(** *** What a resolved [fetch] did *)

Lemma superagent_get_resolved r w body w' :
  superagent_get r w = (Resolved body, w') →
  http (host w) r = Some body ∧ w' = add_call r w.
Proof.
  unfold superagent_get. destruct (http (host w) r); intros H; by inversion H.
Qed.

Lemma js_map_resolved v f w ys w' :
  js_map v f w = (Resolved (JArr ys), w') →
  ∃ xs, v = JArr xs ∧ mapM f xs w = (Resolved ys, w').
Proof.
  destruct v; simpl; try discriminate. intros H. resolved_step H.
  inversion H; subst. eauto.
Qed.

Lemma swallow_resolved (m : M Json) w ys w' :
  catch m (λ error, console_log (LogError error);; mret JUndefined) w
    = (Resolved (JArr ys), w') →
  m w = (Resolved (JArr ys), w').
Proof.
  unfold catch. destruct (m w) as [[v|e] w1]; [done|].
  rewrite run_bind. simpl. discriminate.
Qed.

Lemma fetch_resolved k data w ys w' :
  fetch k data w = (Resolved (JArr ys), w') →
  ∃ body xs w0,
    http (host w) (request_of k (host w) data) = Some body
    ∧ store w0 = store w ∧ faults w0 = faults w ∧ host w0 = host w
    ∧ sent w0 = sent w
    ∧ calls w0 = calls w ++ [request_of k (host w) data]
    ∧ items_of k body w0 = (Resolved (JArr xs), w0)
    ∧ mapM (summarize k data) xs w0 = (Resolved ys, w').
Proof.
  intros H.
  destruct k; simpl in H;
    unfold Weather_fetch, Events_fetch, Movies_fetch, Yelp_fetch in H.
  - resolved_step H. inversion E; subst; clear E.
    resolved_step H. apply superagent_get_resolved in E as [Hb ->].
    resolved_step H. resolved_step H.
    apply js_map_resolved in H as (xs & -> & H).
    eexists _, xs, _. split; [exact Hb|].
    split_and!; [| | | | | | exact H]; try done.
    simpl. by rewrite run_bind, E, E0.
  - resolved_step H. inversion E; subst; clear E.
    resolved_step H. inversion E; subst; clear E.
    resolved_step H. apply superagent_get_resolved in E as [Hb ->].
    resolved_step H.
    apply js_map_resolved in H as (xs & -> & H).
    eexists _, xs, _. split; [exact Hb|].
    by split_and!; [| | | | | | exact H].
  - resolved_step H. inversion E; subst; clear E.
    resolved_step H. inversion E; subst; clear E.
    apply swallow_resolved in H.
    resolved_step H. apply superagent_get_resolved in E as [Hb ->].
    resolved_step H.
    apply js_map_resolved in H as (xs & -> & H).
    eexists _, xs, _. split; [exact Hb|].
    by split_and!; [| | | | | | exact H].
  - resolved_step H. inversion E; subst; clear E.
    resolved_step H. inversion E; subst; clear E.
    apply swallow_resolved in H.
    resolved_step H. apply superagent_get_resolved in E as [Hb ->].
    resolved_step H.
    apply js_map_resolved in H as (xs & -> & H).
    eexists _, xs, _. split; [exact Hb|].
    by split_and!; [| | | | | | exact H].
Qed.

Lemma persist_healthy location_id ys : ∀ fs tb,
  healthy (length ys) fs →
  persist location_id fs ys tb =
    mkTable (rows tb ++ saved_rows (next_id tb) location_id ys)
            (next_id tb + Z.of_nat (length ys)).
Proof.
  induction ys as [|y ys IH]; intros fs tb Hh.
  - simpl. rewrite app_nil_r, Z.add_0_r. by destruct tb.
  - rewrite persist_cons. simpl persist at 2.
    assert (head fs ≠ Some true ∧ healthy (length ys) (tail fs)) as [Hhd Htl].
    { unfold healthy in *. destruct fs as [|b fs]; simpl in *.
      - split; [done | by rewrite take_nil].
      - inversion Hh; subst. split; [simpl; congruence | done]. }
    rewrite IH by done.
    destruct (head fs) as [[]|]; [done| |]; simpl;
      rewrite <- app_assoc; simpl; f_equal; lia.
Qed.

Lemma fetch_store k data w ys w' tb :
  fetch k data w = (Resolved (JArr ys), w') →
  store w !! tableName k = Some tb →
  store w' = <[tableName k := persist (id data) (faults w) ys tb]> (store w)
  ∧ faults w' = drop (length ys) (faults w)
  ∧ Forall (λ y, keys y = fields k) ys.
Proof.
  intros H Ht.
  apply fetch_resolved in H as (body & xs & w0 & _ & Hs & Hf & _ & _ & _ & _ & H).
  rewrite <- Hs, <- Hf. apply (mapM_summarize k data xs w0 ys w' tb H).
  by rewrite Hs.
Qed.

(** *** Frames of a query and of a [fetch] *)

Lemma client_query_calls q w : calls (snd (client_query q w)) = calls w.
Proof.
  unfold client_query.
  destruct (head (faults w)) as [[]|]; try done;
    by destruct (exec_query q (store w)) as [[]|].
Qed.

Lemma client_query_same_sent q : keeps same_sent (client_query q).
Proof.
  intros w. unfold same_sent, client_query.
  destruct (head (faults w)) as [[]|]; try done;
    by destruct (exec_query q (store w)) as [[]|].
Qed.

Lemma insert_same_but t cols vals : keeps (same_but t) (client_query (Insert t cols vals)).
Proof.
  intros w t' Hne. unfold client_query.
  destruct (head (faults w)) as [[]|]; try done; simpl;
    destruct (store w !! t) as [tb|]; simpl; try done;
    destruct (Nat.eqb _ _); simpl; try done; by rewrite lookup_insert_ne.
Qed.

Lemma fetch_same_sent k data w : sent (snd (fetch k data w)) = sent w.
Proof.
  apply (keeps_fetch same_sent); unfold same_sent; try done.
  - intros; congruence.
  - intros; apply client_query_same_sent.
Qed.

Lemma fetch_same_but k data w t :
  t ≠ tableName k → store (snd (fetch k data w)) !! t = store w !! t.
Proof.
  revert t. apply (keeps_fetch (same_but (tableName k))); unfold same_but; try done.
  - intros w1 w2 w3 H12 H23 t Hne. by rewrite H23, H12.
  - intros; by apply insert_same_but.
Qed.

Lemma batch_evicted location_id tb : batch location_id (evicted location_id tb) = [].
Proof.
  unfold batch, evicted. simpl. induction (rows tb) as [|r l IH]; simpl; [done|].
  destruct (matches _ _ r) eqn:E; simpl; [done|]. by rewrite E.
Qed.

Lemma tableName_inj k k' : tableName k = tableName k' → k = k'.
Proof. by destruct k, k'. Qed.

Lemma tableName_not_locations k : "locations" ≠ tableName k.
Proof. by destruct k. Qed.

(** ** The claims *)

(** C2. A batch whose age is at most the kind's time-out is answered from
    the table as it is: the rows the SELECT found are sent unchanged, no
    provider is called and the database is left as it was.  The age is the
    one the code computes, [Date.now()] minus the [created_at] of the first
    row found. *)
Theorem fresh_batch_is_served_from_the_table k data w tb r rest c :
  head (faults w) ≠ Some true →
  store w !! tableName k = Some tb →
  batch (id data) tb = r :: rest →
  to_number (field "created_at" r) = Some c →
  clock (host w) (reads w) - c ≤ timeouts k →
  sent (snd (getResource k data w)) = sent w ++ [JArr (map JObj (r :: rest))]
  ∧ calls (snd (getResource k data w)) = calls w
  ∧ store (snd (getResource k data w)) = store w.
Proof.
  intros Hf Ht Hb Hc Hage.
  rewrite (getResource_hit k data w tb r rest Hf Ht Hb
             (js_gt_fresh _ _ _ _ Hc Hage)).
  done.
Qed.

(** C1 (what the code does on the stale branch).  A batch older than the
    time-out is deleted, and there the request ends: [this.cacheMiss;] calls
    nothing, so no provider is called and no response is sent. *)
Theorem stale_batch_is_evicted_but_never_refetched k data w tb r rest c :
  head (faults w) ≠ Some true →
  store w !! tableName k = Some tb →
  batch (id data) tb = r :: rest →
  to_number (field "created_at" r) = Some c →
  timeouts k < clock (host w) (reads w) - c →
  calls (snd (getResource k data w)) = calls w
  ∧ sent (snd (getResource k data w)) = sent w
  ∧ (head (tail (faults w)) ≠ Some true →
     ∃ tb', store (snd (getResource k data w)) !! tableName k = Some tb'
            ∧ batch (id data) tb' = []).
Proof.
  intros Hf Ht Hb Hc Hage.
  rewrite (getResource_stale k data w tb r rest Hf Ht Hb
             (js_gt_stale _ _ _ _ Hc Hage)).
  cbn [snd]. split_and!.
  - unfold deleteByLocationId. by rewrite client_query_calls.
  - unfold deleteByLocationId. by rewrite client_query_same_sent.
  - intros Hd. rewrite (delete_batch k data _ tb) by done. simpl.
    exists (evicted (id data) tb). split; [|apply batch_evicted].
    destruct (head (tail (faults w))) as [[]|]; [done|..]; apply lookup_insert_eq.
Qed.

(** C10. On the stale branch the one change to the database is the DELETE
    in the kind's own table of the rows of this location: the table keeps
    its other rows and its id counter, and the locations table and the
    tables of the other kinds are as they were.  (If the DELETE is refused,
    nothing changes at all.) *)
Theorem stale_eviction_touches_only_the_batch k data w tb r rest c :
  head (faults w) ≠ Some true →
  store w !! tableName k = Some tb →
  batch (id data) tb = r :: rest →
  to_number (field "created_at" r) = Some c →
  timeouts k < clock (host w) (reads w) - c →
  store (snd (getResource k data w)) =
    match head (tail (faults w)) with
    | Some true => store w
    | _ => <[tableName k := evicted (id data) tb]> (store w)
    end
  ∧ store (snd (getResource k data w)) !! "locations" = store w !! "locations"
  ∧ ∀ k', k' ≠ k →
      store (snd (getResource k data w)) !! tableName k' = store w !! tableName k'.
Proof.
  intros Hf Ht Hb Hc Hage.
  rewrite (getResource_stale k data w tb r rest Hf Ht Hb
             (js_gt_stale _ _ _ _ Hc Hage)).
  cbn [snd]. rewrite (delete_batch k data _ tb) by done. simpl.
  split_and!; [done|..].
  - destruct (head (tail (faults w))) as [[]|]; [done|..];
      apply lookup_insert_ne; intros E; by apply (tableName_not_locations k).
  - intros k' Hk.
    destruct (head (tail (faults w))) as [[]|]; [done|..];
      apply lookup_insert_ne; intros E; by apply tableName_inj in E.
Qed.

Lemma cacheMiss_run k data w :
  cacheMiss (resourceHandler k data) w =
    match fetch k data (add_log (LogText ("Fetching " +:+ fetchingName k)) w) with
    | (Resolved v, w') => (Resolved tt, add_sent v w')
    | (Rejected e, w') => (Resolved tt, add_log (LogError e) w')
    end.
Proof.
  simpl. rewrite run_bind. simpl. unfold catch. rewrite run_bind.
  by destruct (fetch k data _) as [[v|e] w'].
Qed.

(** C3 (what the code does for movies and reviews).  When the provider call
    of [Movies.fetch] or [Yelp.fetch] fails, the [.catch] inside [fetch]
    logs the error and resolves with undefined, and the route sends that
    undefined as its answer: an empty success in place of the failure.
    Nothing is persisted. *)
Theorem swallowed_provider_failure_is_answered_as_success k data w tb :
  k = Movies ∨ k = Yelp →
  head (faults w) ≠ Some true →
  store w !! tableName k = Some tb →
  batch (id data) tb = [] →
  http (host w) (request_of k (host w) data) = None →
  fetch k data w =
    (Resolved JUndefined,
     add_log (LogError (HttpError (url (request_of k (host w) data))))
       (add_call (request_of k (host w) data)
          (add_log (LogText (match k with Movies => "here in movie fetch"
                                        | _ => "here in yelp" end)) w)))
  ∧ sent (snd (getResource k data w)) = sent w ++ [JUndefined]
  ∧ store (snd (getResource k data w)) = store w.
Proof.
  intros Hk Hf Ht Hb Hfail.
  assert (Hrun : ∀ w0, host w0 = host w →
            fetch k data w0 =
              (Resolved JUndefined,
               add_log (LogError (HttpError (url (request_of k (host w) data))))
                 (add_call (request_of k (host w) data)
                    (add_log (LogText (match k with Movies => "here in movie fetch"
                                                  | _ => "here in yelp" end)) w0)))).
  { intros w0 Hh.
    destruct Hk as [-> | ->]; simpl in *;
      unfold Movies_fetch, Yelp_fetch, catch, superagent_get;
      repeat (rewrite run_bind; simpl); rewrite Hh, Hfail; reflexivity. }
  split; [by apply Hrun|].
  rewrite (getResource_miss k data w tb Hf Ht Hb), cacheMiss_run.
  rewrite Hrun by done. done.
Qed.

(** The sibling paths: [Weather.fetch] and [Events.fetch] have no [.catch]
    of their own, so a failed provider call rejects the promise they
    return, with nothing persisted on the way. *)
Lemma provider_failure_rejects k data w :
  k = Weather ∨ k = Events →
  http (host w) (request_of k (host w) data) = None →
  fst (fetch k data w) = Rejected (HttpError (url (request_of k (host w) data)))
  ∧ store (snd (fetch k data w)) = store w.
Proof.
  intros Hk Hfail.
  destruct Hk as [-> | ->]; simpl in *;
    unfold Weather_fetch, Events_fetch, superagent_get;
    repeat (rewrite run_bind; simpl); rewrite Hfail; done.
Qed.

(** C4 (as the code has it).  Persistence on the miss path happens inside
    [fetch]: when it resolves with the records [ys], the kind's table
    already holds the outcome of one [save] per record; whatever its
    outcome, [fetch] leaves every other table as it was; and the route
    callback that called [fetch] changes nothing in the database itself. *)
Theorem persistence_happens_inside_fetch k data w ys w' tb :
  fetch k data w = (Resolved (JArr ys), w') →
  store w !! tableName k = Some tb →
  store w' = <[tableName k := persist (id data) (faults w) ys tb]> (store w)
  ∧ (∀ w0 t, t ≠ tableName k → store (snd (fetch k data w0)) !! t = store w0 !! t)
  ∧ ∀ w0, store (snd (cacheMiss (resourceHandler k data) w0)) =
          store (snd (fetch k data
                        (add_log (LogText ("Fetching " +:+ fetchingName k)) w0))).
Proof.
  intros H Ht. destruct (fetch_store k data w ys w' tb H Ht) as (Hs & _ & _).
  split_and!; [done| |].
  - intros w0 t Hne. by apply fetch_same_but.
  - intros w0. rewrite cacheMiss_run.
    by destruct (fetch k data (add_log _ w0)) as [[v|e] w1].
Qed.

Lemma miss_answered k data w tb ys :
  head (faults w) ≠ Some true →
  store w !! tableName k = Some tb →
  batch (id data) tb = [] →
  sent (snd (getResource k data w)) = sent w ++ [JArr ys] →
  store (snd (getResource k data w)) =
    <[tableName k := persist (id data) (tail (faults w)) ys tb]> (store w)
  ∧ Forall (λ y, keys y = fields k) ys.
Proof.
  intros Hf Ht Hb Hsent.
  rewrite (getResource_miss k data w tb Hf Ht Hb), cacheMiss_run in Hsent |- *.
  set (w1 := add_log _ _) in *.
  pose proof (fetch_same_sent k data w1) as Hs.
  destruct (fetch k data w1) as [[v|e] w2] eqn:E; simpl in *.
  - rewrite Hs in Hsent. apply app_inv_head in Hsent. inversion Hsent; subst.
    destruct (fetch_store k data w1 ys w2 tb E Ht) as (Hst & _ & Hk).
    by rewrite Hst.
  - rewrite Hs in Hsent. apply (f_equal length) in Hsent.
    rewrite length_app in Hsent. simpl in Hsent. lia.
Qed.

Lemma persist_accepted location_id ys : ∀ fs tb,
  persist location_id fs ys tb =
    mkTable (rows tb ++ saved_rows (next_id tb) location_id (accepted fs ys))
            (next_id tb + Z.of_nat (length (accepted fs ys))).
Proof.
  induction ys as [|y ys IH]; intros fs tb.
  - simpl. rewrite app_nil_r, Z.add_0_r. by destruct tb.
  - rewrite persist_cons. simpl persist at 2. simpl accepted.
    rewrite IH.
    destruct (head fs) as [[]|]; [done| |]; simpl;
      rewrite <- app_assoc; simpl; f_equal; lia.
Qed.

Lemma accepted_healthy ys : ∀ fs, healthy (length ys) fs → accepted fs ys = ys.
Proof.
  induction ys as [|y ys IH]; intros fs Hh; [done|].
  unfold healthy in *. destruct fs as [|b fs]; simpl in *.
  - f_equal. apply IH. by rewrite take_nil.
  - inversion Hh; subst. simpl. f_equal. by apply IH.
Qed.

(** C5 (what the code does with the saves).  On a miss that is answered
    with the records [ys], the rows added to the kind's table are, in
    order, the records whose [save] the store accepted, each with the
    record's own fields and values between a new [id] and the
    [location_id]: what is persisted has been returned, but a record whose
    [save] is refused is returned without being persisted, since nothing
    waits for the [save]s.  Only when every [save] is accepted is each
    record returned also persisted. *)
Theorem miss_path_persists_only_the_accepted_saves k data w tb ys :
  head (faults w) ≠ Some true →
  store w !! tableName k = Some tb →
  batch (id data) tb = [] →
  sent (snd (getResource k data w)) = sent w ++ [JArr ys] →
  ∃ tb', store (snd (getResource k data w)) !! tableName k = Some tb'
         ∧ rows tb' = rows tb
                      ++ saved_rows (next_id tb) (id data)
                           (accepted (tail (faults w)) ys)
         ∧ Forall (λ y, keys y = fields k) ys
         ∧ (healthy (length ys) (tail (faults w)) →
            accepted (tail (faults w)) ys = ys).
Proof.
  intros Hf Ht Hb Hsent.
  destruct (miss_answered k data w tb ys Hf Ht Hb Hsent) as [Hst Hk].
  exists (persist (id data) (tail (faults w)) ys tb). split_and!.
  - rewrite Hst. apply lookup_insert_eq.
  - by rewrite persist_accepted.
  - exact Hk.
  - apply accepted_healthy.
Qed.

(** *** Rows written by [save], read back *)

Lemma field_app_in name (fs l : list (string * Json)) :
  name ∈ map fst fs → field name (fs ++ l) = field name fs.
Proof.
  induction fs as [|[k v] fs IH]; simpl; intros Hin.
  - by apply elem_of_nil in Hin.
  - destruct (String.eqb k name) eqn:E; [done|].
    apply IH. apply elem_of_cons in Hin as [->|]; [|done].
    by rewrite String.eqb_refl in E.
Qed.

Lemma field_app_not_in name v (fs : list (string * Json)) :
  name ∉ map fst fs → field name (fs ++ [(name, v)]) = v.
Proof.
  induction fs as [|[k x] fs IH]; simpl; intros Hin.
  - by rewrite String.eqb_refl.
  - destruct (String.eqb k name) eqn:E.
    + apply String.eqb_eq in E as ->. exfalso. apply Hin. by left.
    + apply IH. intros H. apply Hin. by right.
Qed.

Lemma location_id_not_a_field k : "location_id" ∉ fields k.
Proof. destruct k; by apply (bool_decide_unpack _). Qed.

Lemma created_at_is_a_field k : "created_at" ∈ fields k.
Proof. destruct k; by apply (bool_decide_unpack _). Qed.

Lemma saved_row_location_id k n location_id y :
  keys y = fields k →
  matches "location_id" (JNum location_id) (saved_row n location_id y) = true.
Proof.
  intros Hk. unfold matches, saved_row. simpl.
  rewrite field_app_not_in.
  - simpl. apply Z.eqb_refl.
  - fold (keys y). rewrite Hk. apply location_id_not_a_field.
Qed.

Lemma saved_row_created_at k n location_id y :
  keys y = fields k →
  field "created_at" (saved_row n location_id y) = field "created_at" (fields_of y).
Proof.
  intros Hk. unfold saved_row. simpl. apply field_app_in.
  fold (keys y). rewrite Hk. apply created_at_is_a_field.
Qed.

Lemma saved_row_keys k n location_id y :
  keys y = fields k →
  map fst (saved_row n location_id y) = "id" :: fields k ++ ["location_id"].
Proof.
  intros Hk. unfold saved_row. simpl. rewrite map_app. fold (keys y).
  by rewrite Hk.
Qed.

Lemma saved_rows_batch k location_id ys : ∀ n,
  Forall (λ y, keys y = fields k) ys →
  List.filter (matches "location_id" (JNum location_id)) (saved_rows n location_id ys)
  = saved_rows n location_id ys.
Proof.
  induction ys as [|y ys IH]; intros n Hk; simpl; [done|].
  inversion Hk; subst.
  rewrite (saved_row_location_id k) by done. by rewrite IH.
Qed.

(** The rows a hit serves after a miss, in a store that hands back what
    was inserted. *)
Lemma hit_after_miss_rows k data w tb y ys w2 c :
  head (faults w) ≠ Some true →
  store w !! tableName k = Some tb →
  batch (id data) tb = [] →
  sent (snd (getResource k data w)) = sent w ++ [JArr (y :: ys)] →
  healthy (length (y :: ys)) (tail (faults w)) →
  store w2 = store (snd (getResource k data w)) →
  head (faults w2) ≠ Some true →
  to_number (field "created_at" (fields_of y)) = Some c →
  clock (host w2) (reads w2) - c ≤ timeouts k →
  sent (snd (getResource k data w2)) =
    sent w2 ++ [JArr (map JObj (saved_rows (next_id tb) (id data) (y :: ys)))]
  ∧ response_keys (JArr (y :: ys)) = map (λ _, fields k) (y :: ys)
  ∧ response_keys (JArr (map JObj (saved_rows (next_id tb) (id data) (y :: ys))))
    = map (λ _, "id" :: fields k ++ ["location_id"]) (y :: ys).
Proof.
  intros Hf Ht Hb Hsent Hh Hst Hf2 Hc Hage.
  destruct (miss_answered k data w tb (y :: ys) Hf Ht Hb Hsent) as [Hst' Hk].
  set (tb' := persist (id data) (tail (faults w)) (y :: ys) tb) in *.
  assert (Ht' : store w2 !! tableName k = Some tb').
  { rewrite Hst, Hst'. apply lookup_insert_eq. }
  assert (Hrows : rows tb' = rows tb ++ saved_rows (next_id tb) (id data) (y :: ys)).
  { unfold tb'. by rewrite persist_healthy. }
  clearbody tb'.
  assert (Hb' : batch (id data) tb' = saved_rows (next_id tb) (id data) (y :: ys)).
  { unfold batch. rewrite Hrows, List.filter_app.
    fold (batch (id data) tb). rewrite Hb.
    by rewrite (saved_rows_batch k). }
  inversion Hk as [|? ? Hy Hys]; subst.
  split_and!.
  - simpl in Hb'.
    assert (Hfresh : js_gt (js_sub (clock (host w2) (reads w2))
                (field "created_at" (saved_row (next_id tb) (id data) y)))
              (timeouts k) = false).
    { apply (js_gt_fresh _ _ c); [|done].
      by rewrite (saved_row_created_at k). }
    by rewrite (getResource_hit k data w2 tb' _ _ Hf2 Ht' Hb' Hfresh).
  - simpl. f_equal; [done|].
    clear -Hys. induction Hys; simpl; [done|]. by f_equal.
  - unfold response_keys. rewrite map_map.
    clear -Hk. generalize (next_id tb).
    induction Hk as [|y' l Hy' _ IH]; intros n; simpl; [done|].
    f_equal; [|apply IH]. exact (saved_row_keys k n (id data) y' Hy').
Qed.

Lemma length_saved_rows location_id ys : ∀ n,
  length (saved_rows n location_id ys) = length ys.
Proof. induction ys as [|y ys IH]; intros n; simpl; [done|]. by rewrite IH. Qed.

Lemma Forall_constant_map {A B} (c : B) (l : list A) :
  Forall (λ b, b = c) (map (λ _, c) l).
Proof. induction l; by constructor. Qed.

(** C6 (as the code has it).  The two paths do not answer in the same
    shape.  After a miss answered with the records [ys] (every [save]
    accepted), a request that finds those rows still young answers with as
    many rows; each object of the miss carries exactly the kind's fields,
    each object of the hit carries the kind's fields and, in addition, the
    keys [id] and [location_id]. *)
Theorem hit_rows_carry_two_more_keys_than_miss_records k data w tb y ys w2 c :
  head (faults w) ≠ Some true →
  store w !! tableName k = Some tb →
  batch (id data) tb = [] →
  sent (snd (getResource k data w)) = sent w ++ [JArr (y :: ys)] →
  healthy (length (y :: ys)) (tail (faults w)) →
  store w2 = store (snd (getResource k data w)) →
  head (faults w2) ≠ Some true →
  to_number (field "created_at" (fields_of y)) = Some c →
  clock (host w2) (reads w2) - c ≤ timeouts k →
  ∃ served,
    sent (snd (getResource k data w2)) = sent w2 ++ [JArr served]
    ∧ length served = length (y :: ys)
    ∧ Forall (λ ks, ks = fields k) (response_keys (JArr (y :: ys)))
    ∧ Forall (λ ks, ks = "id" :: fields k ++ ["location_id"])
        (response_keys (JArr served)).
Proof.
  intros Hf Ht Hb Hsent Hh Hst Hf2 Hc Hage.
  destruct (hit_after_miss_rows k data w tb y ys w2 c Hf Ht Hb Hsent Hh Hst Hf2
              Hc Hage) as (Hhit & Hmiss_keys & Hhit_keys).
  exists (map JObj (saved_rows (next_id tb) (id data) (y :: ys))).
  split_and!.
  - exact Hhit.
  - by rewrite length_map, length_saved_rows.
  - rewrite Hmiss_keys. apply Forall_constant_map.
  - rewrite Hhit_keys. apply Forall_constant_map.
Qed.

(** *** The provider call of a [fetch] *)

Lemma client_query_same_calls q : keeps same_calls (client_query q).
Proof. intros w. apply client_query_calls. Qed.

Lemma summaries_same_calls k data v : keeps same_calls (js_map v (summarize k data)).
Proof.
  apply keeps_summaries; unfold same_calls; try done.
  - intros; congruence.
  - intros; apply client_query_same_calls.
Qed.

Lemma call_then {A} r (cont : Json → M A) w :
  (∀ body, keeps same_calls (cont body)) →
  calls (snd ((superagent_get r ≫= cont) w)) = calls w ++ [r].
Proof.
  intros K. rewrite run_bind. unfold superagent_get.
  destruct (http (host w) r) as [body|]; [|done]. apply (K body).
Qed.

Lemma swallow_calls (m : M Json) w :
  calls (snd (catch m (λ error, console_log (LogError error);; mret JUndefined) w))
  = calls (snd (m w)).
Proof. unfold catch. by destruct (m w) as [[v|e] w']. Qed.

Lemma items_same_calls k data name body :
  keeps same_calls
    (prop name body ≫= λ items, js_map items (summarize k data)).
Proof.
  apply keeps_bind; unfold same_calls; try done.
  - intros; congruence.
  - apply keeps_prop. done.
  - intros. apply summaries_same_calls.
Qed.

Lemma fetch_calls k data w :
  calls (snd (fetch k data w)) = calls w ++ [request_of k (host w) data].
Proof.
  destruct k; simpl; unfold Weather_fetch, Events_fetch, Movies_fetch, Yelp_fetch.
  - rewrite run_bind. simpl. apply call_then. intros body.
    apply keeps_bind; unfold same_calls; try done.
    + intros; congruence.
    + apply keeps_prop. done.
    + intros. apply items_same_calls.
  - rewrite after_log, with_host.
    apply (call_then _ _ (add_log _ w)). intros. apply items_same_calls.
  - rewrite after_log, with_host, swallow_calls.
    apply (call_then _ _ (add_log _ w)). intros. apply items_same_calls.
  - rewrite after_log, with_host, swallow_calls.
    apply (call_then _ _ (add_log _ w)). intros. apply items_same_calls.
Qed.

Lemma append_inj_l (p a b : string) : p +:+ a = p +:+ b → a = b.
Proof. induction p as [|c p IH]; simpl; [done|]. intros H. apply IH. by inversion H. Qed.

(** C7 (as the code has it).  Every [fetch] issues one provider call, the
    request [request_of]; for weather, events and reviews two locations get
    the same request exactly when they agree on the part the request is
    built from (latitude and longitude; formatted address; search text);
    the movies request is the same whatever the location. *)
Theorem provider_request_of_a_location k l1 l2 w :
  calls (snd (fetch k l1 w)) = calls w ++ [request_of k (host w) l1]
  ∧ (request_of k (host w) l1 = request_of k (host w) l2
     ↔ location_part k l1 = location_part k l2).
Proof.
  split; [apply fetch_calls|].
  destruct k; cbn [request_of location_part];
    unfold Weather_url, Events_url, Movies_url, Yelp_url.
  - split; intros H; [|by rewrite H].
    apply (f_equal url) in H. cbn [url] in H.
    by do 3 apply append_inj_l in H.
  - split; intros H; [|by rewrite H].
    apply (f_equal url) in H. cbn [url] in H.
    by do 3 apply append_inj_l in H.
  - done.
  - split; intros H; [|by rewrite H].
    apply (f_equal url) in H. cbn [url] in H.
    by apply append_inj_l in H.
Qed.

(** *** Location resolution *)

Lemma fetchLocation_no_data query w fs :
  http (host w) (mkRequest (geocode_url (host w) query) None) = Some (JObj fs) →
  field "results" fs = JArr [] →
  Location_fetchLocation query w =
    (Rejected (Thrown (JStr "No data")),
     add_call (mkRequest (geocode_url (host w) query) None) w).
Proof.
  intros Hb Hr. unfold Location_fetchLocation.
  rewrite with_host, run_bind. unfold superagent_get. rewrite Hb.
  rewrite run_bind. simpl. rewrite Hr. reflexivity.
Qed.

(** C8. When the geocoding provider answers with an empty [results], the
    promise of [Location.fetchLocation] rejects with the thrown ['No data']
    (the program's not-found error) and the database is as it was; the
    route callback that asked, [searchCoords] on a miss, logs the rejection
    and has stored no location and sent no answer. *)
Theorem geocoding_without_results_is_no_data text w fs tb :
  http (host w) (mkRequest (geocode_url (host w) text) None) = Some (JObj fs) →
  field "results" fs = JArr [] →
  head (faults w) ≠ Some true →
  store w !! "locations" = Some tb →
  List.filter (matches "search_query" (JStr text)) (rows tb) = [] →
  fst (Location_fetchLocation text w) = Rejected (Thrown (JStr "No data"))
  ∧ store (snd (Location_fetchLocation text w)) = store w
  ∧ store (snd (searchCoords text w)) = store w
  ∧ sent (snd (searchCoords text w)) = sent w
  ∧ console (snd (searchCoords text w)) =
      console w ++ [LogText "Fetching Locations";
                    LogError (Thrown (JStr "No data"))].
Proof.
  intros Hb Hr Hf Ht Hrows.
  rewrite (fetchLocation_no_data text w fs Hb Hr).
  split_and!; try done.
  all: unfold searchCoords, Location_lookup, catch; rewrite run_bind;
    cbn [query]; rewrite client_query_accepted by done; simpl;
    rewrite Ht; simpl; rewrite Hrows; simpl;
    rewrite run_bind, after_log; unfold catch; rewrite run_bind;
    rewrite fetchLocation_no_data with (fs := fs) by done; simpl; try done.
  by rewrite <- app_assoc.
Qed.

(** *** A lookup the store refuses *)

Lemma lookup_select_rejected handler w e :
  fst (client_query
         (Select (handler_tableName handler) "location_id"
            (JNum (id (location handler)))) w) = Rejected e →
  lookup handler w =
    (Resolved errorObj,
     add_log (LogValue errorObj)
       (snd (client_query
               (Select (handler_tableName handler) "location_id"
                  (JNum (id (location handler)))) w))).
Proof.
  intros H. unfold lookup, catch. rewrite run_bind.
  destruct (client_query _ w) as [[rs|e'] w']; simpl in *; [discriminate|done].
Qed.

Lemma Location_lookup_select_rejected handler w e :
  fst (client_query (Select "locations" "search_query" (JStr (query handler))) w)
    = Rejected e →
  Location_lookup handler w =
    (Resolved JUndefined,
     add_log (LogError e)
       (snd (client_query
               (Select "locations" "search_query" (JStr (query handler))) w))).
Proof.
  intros H. unfold Location_lookup, catch. rewrite run_bind.
  destruct (client_query _ w) as [[rs|e'] w']; simpl in *; [discriminate|].
  by inversion H.
Qed.

(** A table that does not exist makes the SELECT fail just as a refusal
    does. *)
Lemma lookup_without_table k data w :
  store w !! tableName k = None →
  getResource k data w =
    (Resolved errorObj,
     add_log (LogValue errorObj) (set_faults (tail (faults w)) w)).
Proof.
  intros Ht. unfold getResource.
  assert (Hq : client_query
                 (Select (tableName k) "location_id" (JNum (id data))) w
               = (Rejected StoreError, set_faults (tail (faults w)) w)).
  { unfold client_query. simpl. rewrite Ht. simpl.
    by destruct (head (faults w)) as [[]|]. }
  rewrite (lookup_select_rejected _ w StoreError); simpl; by rewrite Hq.
Qed.

(** C9 (what the code does when the SELECT is refused).  The rejection is
    caught inside the lookup and logged (the generic error object that
    [errorMessage] builds for a resource kind, the error itself for a
    location), and the lookup's promise resolves: the error object is never
    sent, and the failure reaches nobody.  Neither the hit nor the miss
    handler runs: nothing is sent, no provider is called, the database is
    as it was. *)
Theorem refused_lookup_is_logged_not_surfaced k data text w :
  head (faults w) = Some true →
  getResource k data w =
    (Resolved errorObj,
     add_log (LogValue errorObj) (set_faults (tail (faults w)) w))
  ∧ searchCoords text w =
    (Resolved JUndefined,
     add_log (LogError StoreError) (set_faults (tail (faults w)) w))
  ∧ sent (snd (getResource k data w)) = sent w
  ∧ calls (snd (getResource k data w)) = calls w
  ∧ store (snd (getResource k data w)) = store w.
Proof.
  intros Hf.
  assert (Hq : ∀ q, client_query q w
                    = (Rejected StoreError, set_faults (tail (faults w)) w)).
  { intros q. by apply client_query_refused. }
  assert (H1 : getResource k data w =
    (Resolved errorObj,
     add_log (LogValue errorObj) (set_faults (tail (faults w)) w))).
  { unfold getResource.
    rewrite (lookup_select_rejected _ w StoreError); simpl; by rewrite Hq. }
  rewrite H1. split_and!; try done.
  unfold searchCoords.
  rewrite (Location_lookup_select_rejected _ w StoreError); simpl; by rewrite Hq.
Qed.

(** ** The claims on the sample data *)

(** Five seconds after the row was written, the row is the answer. *)
Lemma fresh_batch_witness :
  sent (snd (getResource Weather seattle (w_cached (t0 - 5000))))
    = sent (w_cached (t0 - 5000)) ++ [JArr (map JObj [clear_row (t0 - 5000)])]
  ∧ calls (snd (getResource Weather seattle (w_cached (t0 - 5000))))
    = calls (w_cached (t0 - 5000))
  ∧ store (snd (getResource Weather seattle (w_cached (t0 - 5000))))
    = store (w_cached (t0 - 5000)).
Proof.
  apply (fresh_batch_is_served_from_the_table Weather seattle
           (w_cached (t0 - 5000)) (cached_table (t0 - 5000))
           (clear_row (t0 - 5000)) [] (t0 - 5000)).
  - discriminate.
  - reflexivity.
  - reflexivity.
  - reflexivity.
  - vm_compute. discriminate.
Defined.

(** Twenty seconds after: the row is deleted, no provider is called and
    nothing is sent. *)
Lemma stale_batch_witness :
  calls (snd (getResource Weather seattle (w_cached (t0 - 20000))))
    = calls (w_cached (t0 - 20000))
  ∧ sent (snd (getResource Weather seattle (w_cached (t0 - 20000))))
    = sent (w_cached (t0 - 20000))
  ∧ (head (tail (faults (w_cached (t0 - 20000)))) ≠ Some true →
     ∃ tb', store (snd (getResource Weather seattle (w_cached (t0 - 20000))))
              !! tableName Weather = Some tb'
            ∧ batch (id seattle) tb' = []).
Proof.
  apply (stale_batch_is_evicted_but_never_refetched Weather seattle
           (w_cached (t0 - 20000)) (cached_table (t0 - 20000))
           (clear_row (t0 - 20000)) [] (t0 - 20000)).
  - discriminate.
  - reflexivity.
  - reflexivity.
  - reflexivity.
  - vm_compute. reflexivity.
Defined.

(** The failing input of C1, evaluated: an answer was due, none is sent. *)
Example stale_request_gets_no_answer :
  sent (snd (getWeather seattle (w_cached (t0 - 20000)))) = []
  ∧ calls (snd (getWeather seattle (w_cached (t0 - 20000)))) = []
  ∧ console (snd (getWeather seattle (w_cached (t0 - 20000))))
    = [LogText "weather cache was invalid"].
Proof. by vm_compute. Qed.

Lemma stale_eviction_witness :
  store (snd (getResource Weather seattle (w_cached (t0 - 20000)))) =
    match head (tail (faults (w_cached (t0 - 20000)))) with
    | Some true => store (w_cached (t0 - 20000))
    | _ => <[tableName Weather := evicted (id seattle) (cached_table (t0 - 20000))]>
             (store (w_cached (t0 - 20000)))
    end
  ∧ store (snd (getResource Weather seattle (w_cached (t0 - 20000)))) !! "locations"
    = store (w_cached (t0 - 20000)) !! "locations"
  ∧ ∀ k', k' ≠ Weather →
      store (snd (getResource Weather seattle (w_cached (t0 - 20000)))) !! tableName k'
      = store (w_cached (t0 - 20000)) !! tableName k'.
Proof.
  apply (stale_eviction_touches_only_the_batch Weather seattle
           (w_cached (t0 - 20000)) (cached_table (t0 - 20000))
           (clear_row (t0 - 20000)) [] (t0 - 20000)).
  - discriminate.
  - reflexivity.
  - reflexivity.
  - reflexivity.
  - vm_compute. reflexivity.
Defined.

(** The failing input of C3: the movies provider is down. *)
Lemma swallowed_failure_witness :
  fetch Movies seattle w_empty =
    (Resolved JUndefined,
     add_log (LogError (HttpError (url (request_of Movies (host w_empty) seattle))))
       (add_call (request_of Movies (host w_empty) seattle)
          (add_log (LogText "here in movie fetch") w_empty)))
  ∧ sent (snd (getResource Movies seattle w_empty)) = sent w_empty ++ [JUndefined]
  ∧ store (snd (getResource Movies seattle w_empty)) = store w_empty.
Proof.
  apply (swallowed_provider_failure_is_answered_as_success Movies seattle
           w_empty empty_table).
  - by left.
  - discriminate.
  - reflexivity.
  - reflexivity.
  - reflexivity.
Defined.

(** The same failure on the weather route: the rejection reaches the route
    callback, which logs it; nothing is sent. *)
Example weather_failure_reaches_the_route :
  fst (fetch Weather portland w_empty)
    = Rejected (HttpError "https://api.darksky.net/forecast/undefined/45.5152,-122.6784")
  ∧ sent (snd (getWeather portland w_empty)) = [].
Proof. by vm_compute. Qed.

(** C4 as stated fails: [Weather.fetch] alone changes the database. *)
Lemma fetch_is_not_pure_on_the_store :
  store (snd (fetch Weather seattle w_empty)) ≠ store w_empty.
Proof.
  intros H. apply (f_equal (λ s, rows <$> s !! "weathers")) in H.
  vm_compute in H. discriminate.
Qed.

Lemma persistence_inside_fetch_witness :
  store (snd (fetch Weather seattle w_empty)) =
    <[tableName Weather :=
        persist (id seattle) (faults w_empty) [clear_record t0] empty_table]>
      (store w_empty)
  ∧ (∀ w0 t, t ≠ tableName Weather →
       store (snd (fetch Weather seattle w0)) !! t = store w0 !! t)
  ∧ ∀ w0, store (snd (cacheMiss (resourceHandler Weather seattle) w0)) =
          store (snd (fetch Weather seattle
                        (add_log (LogText ("Fetching " +:+ fetchingName Weather)) w0))).
Proof.
  apply (persistence_happens_inside_fetch Weather seattle w_empty
           [clear_record t0] (snd (fetch Weather seattle w_empty)) empty_table).
  - reflexivity.
  - reflexivity.
Defined.

(** The failing input of C5: the SELECT is accepted, the INSERT after it
    refused.  The record is sent and no row is written. *)
Lemma refused_save_witness :
  ∃ tb', store (snd (getResource Weather seattle w_deaf)) !! tableName Weather
           = Some tb'
         ∧ rows tb' = rows empty_table
                      ++ saved_rows (next_id empty_table) (id seattle)
                           (accepted (tail (faults w_deaf)) [clear_record t0])
         ∧ Forall (λ y, keys y = fields Weather) [clear_record t0]
         ∧ (healthy (length [clear_record t0]) (tail (faults w_deaf)) →
            accepted (tail (faults w_deaf)) [clear_record t0] = [clear_record t0]).
Proof.
  apply (miss_path_persists_only_the_accepted_saves Weather seattle w_deaf
           empty_table [clear_record t0]).
  - discriminate.
  - reflexivity.
  - reflexivity.
  - reflexivity.
Defined.

Example returned_record_is_not_persisted :
  sent (snd (getWeather seattle w_deaf)) = [JArr [clear_record t0]]
  ∧ (rows <$> store (snd (getWeather seattle w_deaf)) !! "weathers") = Some [].
Proof. by vm_compute. Qed.

(** C6 as stated fails: the answer of a miss and the answer of the hit
    that follows it do not carry the same fields. *)
Lemma hit_and_miss_answers_differ_in_shape :
  let miss := snd (getWeather seattle w_empty) in
  let hit := snd (getWeather seattle (mkWorld quiet_host (store miss) [] [] 1 [] [])) in
  map response_keys (sent miss) = [[["forecast"; "time"; "created_at"]]]
  ∧ map response_keys (sent hit)
    = [[["id"; "forecast"; "time"; "created_at"; "location_id"]]]
  ∧ map response_keys (sent miss) ≠ map response_keys (sent hit).
Proof. by vm_compute. Qed.

Lemma two_more_keys_witness :
  ∃ served,
    sent (snd (getResource Weather seattle (snd (getResource Weather seattle w_empty))))
    = sent (snd (getResource Weather seattle w_empty)) ++ [JArr served]
    ∧ length served = length [clear_record t0]
    ∧ Forall (λ ks, ks = fields Weather) (response_keys (JArr [clear_record t0]))
    ∧ Forall (λ ks, ks = "id" :: fields Weather ++ ["location_id"])
        (response_keys (JArr served)).
Proof.
  apply (hit_rows_carry_two_more_keys_than_miss_records Weather seattle w_empty
           empty_table (clear_record t0) []
           (snd (getResource Weather seattle w_empty)) t0).
  - discriminate.
  - reflexivity.
  - reflexivity.
  - reflexivity.
  - constructor.
  - reflexivity.
  - discriminate.
  - reflexivity.
  - vm_compute. discriminate.
Defined.

(** C7 as stated fails for movies: two locations that differ in id, search
    text, address and coordinates get the same provider call. *)
Lemma movies_request_ignores_the_location :
  id seattle ≠ id portland
  ∧ search_query seattle ≠ search_query portland
  ∧ formatted_query seattle ≠ formatted_query portland
  ∧ latitude seattle ≠ latitude portland
  ∧ longitude seattle ≠ longitude portland
  ∧ calls (snd (fetch Movies seattle w_empty))
    = calls (snd (fetch Movies portland w_empty)).
Proof. by vm_compute. Qed.

Lemma no_data_witness :
  fst (Location_fetchLocation "@@invalid@@" w_empty)
    = Rejected (Thrown (JStr "No data"))
  ∧ store (snd (Location_fetchLocation "@@invalid@@" w_empty)) = store w_empty
  ∧ store (snd (searchCoords "@@invalid@@" w_empty)) = store w_empty
  ∧ sent (snd (searchCoords "@@invalid@@" w_empty)) = sent w_empty
  ∧ console (snd (searchCoords "@@invalid@@" w_empty)) =
      console w_empty ++ [LogText "Fetching Locations";
                          LogError (Thrown (JStr "No data"))].
Proof.
  apply (geocoding_without_results_is_no_data "@@invalid@@" w_empty
           [("results", JArr []); ("status", JStr "ZERO_RESULTS")] empty_table).
  - reflexivity.
  - reflexivity.
  - discriminate.
  - reflexivity.
  - reflexivity.
Defined.

(** The failing input of C9, evaluated: a refused SELECT is not surfaced,
    the promise of the lookup resolves and the client gets no answer. *)
Example refused_lookup_does_not_reject :
  (∀ e, fst (lookup (resourceHandler Weather seattle) w_refused) ≠ Rejected e)
  ∧ (∀ e, fst (searchCoords "seattle" w_refused) ≠ Rejected e)
  ∧ sent (snd (getWeather seattle w_refused)) = []
  ∧ sent (snd (searchCoords "seattle" w_refused)) = [].
Proof. by vm_compute. Qed.

Lemma refused_lookup_witness :
  getResource Weather seattle w_refused =
    (Resolved errorObj,
     add_log (LogValue errorObj) (set_faults (tail (faults w_refused)) w_refused))
  ∧ searchCoords "seattle" w_refused =
    (Resolved JUndefined,
     add_log (LogError StoreError) (set_faults (tail (faults w_refused)) w_refused))
  ∧ sent (snd (getResource Weather seattle w_refused)) = sent w_refused
  ∧ calls (snd (getResource Weather seattle w_refused)) = calls w_refused
  ∧ store (snd (getResource Weather seattle w_refused)) = store w_refused.
Proof.
  apply (refused_lookup_is_logged_not_surfaced Weather seattle "seattle" w_refused).
  reflexivity.
Defined.

(** ** Further properties of the routes *)

(** *** Every request takes one of four courses *)

Lemma getResource_course k data w : Course k data w.
Proof.
  destruct (decide (head (faults w) = Some true)) as [Hf|Hf].
  { apply Refused. unfold getResource.
    rewrite (lookup_select_rejected _ w StoreError); simpl;
      by rewrite client_query_refused. }
  destruct (store w !! tableName k) as [tb|] eqn:Ht.
  2: { apply Refused. by apply lookup_without_table. }
  destruct (batch (id data) tb) as [|r rest] eqn:Hb.
  { apply (Miss k data w tb); [done..|]. by apply (getResource_miss k data w tb). }
  destruct (js_gt (js_sub (clock (host w) (reads w)) (field "created_at" r))
              (timeouts k)) eqn:Hage.
  - apply (Stale k data w tb); [done|]. by eapply getResource_stale.
  - apply (Hit k data w tb r rest); [done..|]. by eapply getResource_hit.
Qed.

Lemma cacheMiss_calls k data w :
  calls (snd (cacheMiss (resourceHandler k data) w))
  = calls w ++ [request_of k (host w) data].
Proof.
  rewrite cacheMiss_run.
  pose proof (fetch_calls k data
                (add_log (LogText ("Fetching " +:+ fetchingName k)) w)) as Hc.
  by destruct (fetch k data (add_log _ w)) as [[v|e] w'].
Qed.

Lemma cacheMiss_sent k data w :
  sent (snd (cacheMiss (resourceHandler k data) w)) = sent w
  ∨ ∃ v, sent (snd (cacheMiss (resourceHandler k data) w)) = sent w ++ [v].
Proof.
  rewrite cacheMiss_run.
  pose proof (fetch_same_sent k data
                (add_log (LogText ("Fetching " +:+ fetchingName k)) w)) as Hs.
  destruct (fetch k data (add_log _ w)) as [[v|e] w']; simpl in *.
  - right. exists v. by rewrite Hs.
  - by left.
Qed.

Lemma deleteByLocationId_sent table location_id w :
  sent (snd (deleteByLocationId table location_id w)) = sent w.
Proof. apply client_query_same_sent. Qed.

Lemma deleteByLocationId_calls table location_id w :
  calls (snd (deleteByLocationId table location_id w)) = calls w.
Proof. apply client_query_calls. Qed.

(** X1. The promise of a lookup never rejects, whatever its handlers do:
    a rejection of the SELECT or of the handler that ran is turned into the
    generic error object by [.catch(errorMessage)]; and
    [Location.lookup] always resolves with undefined. *)
Theorem lookup_always_resolves handler lh w :
  (fst (lookup handler w) = Resolved JUndefined
   ∨ fst (lookup handler w) = Resolved errorObj)
  ∧ fst (Location_lookup lh w) = Resolved JUndefined.
Proof.
  split.
  - unfold lookup, catch. rewrite run_bind.
    destruct (client_query _ w) as [[rs|e] w1]; [|by right].
    rewrite run_bind.
    destruct (Nat.ltb 0 (length rs)).
    + destruct (cacheHit handler rs w1) as [[[]|e] w2]; [by left|by right].
    + destruct (cacheMiss handler w1) as [[[]|e] w2]; [by left|by right].
  - unfold Location_lookup, catch. rewrite run_bind.
    destruct (client_query _ w) as [[rs|e] w1]; [|done].
    rewrite run_bind.
    destruct (Nat.ltb 0 (length rs)).
    + by destruct (location_cacheHit lh rs w1) as [[[]|e] w2].
    + by destruct (location_cacheMiss lh w1) as [[[]|e] w2].
Qed.

(** X2. A resource request sends at most one answer and calls at most one
    provider, and the call, if any, is the request of its own kind for the
    location asked. *)
Theorem a_request_answers_and_calls_at_most_once k data w :
  (sent (snd (getResource k data w)) = sent w
   ∨ ∃ v, sent (snd (getResource k data w)) = sent w ++ [v])
  ∧ (calls (snd (getResource k data w)) = calls w
     ∨ calls (snd (getResource k data w))
       = calls w ++ [request_of k (host w) data]).
Proof.
  destruct (getResource_course k data w) as [H|tb r rest _ _ H|tb _ H|tb _ _ H];
    rewrite H; cbn [snd].
  - split; by left.
  - split; [right; by eexists | by left].
  - rewrite deleteByLocationId_sent, deleteByLocationId_calls. split; by left.
  - split; [exact (cacheMiss_sent k data _) | right; exact (cacheMiss_calls k data _)].
Qed.

(** X3. Whatever course a resource request takes, it leaves the locations
    table and the tables of the other kinds exactly as they were. *)
Theorem a_request_touches_only_its_own_table k data w t :
  t ≠ tableName k →
  store (snd (getResource k data w)) !! t = store w !! t.
Proof.
  intros Hne.
  destruct (getResource_course k data w) as [H|tb r rest _ _ H|tb Ht H|tb _ _ H];
    rewrite H; cbn [snd]; try done.
  - rewrite (delete_batch k data _ tb) by done. simpl.
    destruct (head (tail (faults w))) as [[]|]; [done|..];
      by apply lookup_insert_ne.
  - rewrite cacheMiss_run.
    pose proof (fetch_same_but k data
                  (add_log (LogText ("Fetching " +:+ fetchingName k))
                     (set_faults (tail (faults w)) w)) t Hne) as Hs.
    by destruct (fetch k data (add_log _ _)) as [[v|e] w'].
Qed.

Lemma batch_evicted_other location_id other tb :
  other ≠ location_id →
  batch other (evicted location_id tb) = batch other tb.
Proof.
  intros Hne. unfold batch, evicted. simpl.
  induction (rows tb) as [|r l IH]; simpl; [done|].
  destruct (matches "location_id" (JNum location_id) r) eqn:E; simpl.
  - rewrite IH.
    destruct (matches "location_id" (JNum other) r) eqn:E'; [|done].
    unfold matches, sql_eqb in E, E'.
    destruct (field "location_id" r); try discriminate. lia.
  - by rewrite IH.
Qed.

(** X4. An accepted [deleteByLocationId] on a table removes every row of
    the given location and nothing else: the rows of every other location
    are found as before, in the same order, and the table's id counter is
    not set back. *)
Theorem deleteByLocationId_removes_one_location table location_id w tb :
  head (faults w) ≠ Some true →
  store w !! table = Some tb →
  ∃ tb', store (snd (deleteByLocationId table location_id w))
           = <[table := tb']> (store w)
         ∧ next_id tb' = next_id tb
         ∧ batch location_id tb' = []
         ∧ ∀ other, other ≠ location_id → batch other tb' = batch other tb.
Proof.
  intros Hf Ht. exists (evicted location_id tb).
  unfold deleteByLocationId. rewrite client_query_accepted by done.
  simpl. rewrite Ht. simpl. split_and!; try done.
  - apply batch_evicted.
  - intros other Hne. by apply batch_evicted_other.
Qed.

(** *** Constructors and provider items *)

Lemma prop_peek name v w :
  prop name v w = if nullish v then (Rejected TypeError, w)
                  else (Resolved (peek name v), w).
Proof. by destruct v. Qed.

Lemma construct_run k x w :
  construct k x w =
    if item_ok k x
    then (Resolved (built k (host w) (clock (host w) (reads w)) x), tick w)
    else (Rejected TypeError, w).
Proof.
  destruct k; simpl; unfold new_Weather, new_Events, new_Movies, new_Yelp.
  - rewrite run_bind, prop_peek. destruct (nullish x) eqn:Hx; simpl; [done|].
    by rewrite run_bind, prop_peek, Hx.
  - rewrite run_bind, prop_peek. destruct (nullish x) eqn:Hx; simpl; [done|].
    rewrite run_bind, prop_peek.
    destruct (nullish (peek "start" x)) eqn:Hs; simpl; [done|].
    rewrite with_host, run_bind, prop_peek, Hx.
    rewrite run_bind, prop_peek, Hx.
    destruct (nullish (peek "name" x)) eqn:Hn; simpl.
    + by rewrite run_bind, prop_peek, Hn.
    + rewrite run_bind, prop_peek, Hn. by rewrite run_bind, prop_peek, Hx.
  - rewrite run_bind, prop_peek. destruct (nullish x) eqn:Hx; simpl; [done|].
    by repeat (rewrite run_bind, prop_peek, Hx).
  - rewrite run_bind, prop_peek. destruct (nullish x) eqn:Hx; simpl; [done|].
    by repeat (rewrite run_bind, prop_peek, Hx).
Qed.

(** X5. What a constructor does with a provider item that lacks keys:
    [new Weather], [new Movies] and [new Yelp] go through for every item
    that is not undefined or null, [new Events] needs the item's [start]
    and [name] as well; on any other item the constructor throws a
    TypeError before reading the clock.  The record that is built is
    [built]: each field holds the key of the item read for it (undefined
    when the item lacks the key), the dates are the host's printing of
    [time] and of [start.local], the image address is the fixed prefix
    followed by the printed [poster_path], and [created_at] is the clock
    reading; its keys are the kind's fields, in order. *)
Theorem constructor_and_missing_keys k x w :
  if item_ok k x
  then construct k x w
       = (Resolved (built k (host w) (clock (host w) (reads w)) x), tick w)
       ∧ keys (built k (host w) (clock (host w) (reads w)) x) = fields k
       ∧ field "created_at" (fields_of (built k (host w) (clock (host w) (reads w)) x))
         = JNum (clock (host w) (reads w))
  else construct k x w = (Rejected TypeError, w).
Proof.
  rewrite construct_run.
  destruct (item_ok k x); [|done]. split_and!; by destruct k.
Qed.

(** X6. The values of a record reach the columns named like its keys:
    [save] passes [Object.values(this)] by position, and for every record a
    constructor builds, the positions agree with the INSERT's column list.
    An accepted [save] adds one row, the record between the table's next
    [id] and the location's id, and resolves with that [id]. *)
Theorem accepted_save_stores_each_value_under_its_key k x y w w1 location_id tb :
  construct k x w = (Resolved y, w1) →
  head (faults w1) ≠ Some true →
  store w1 !! tableName k = Some tb →
  save k y location_id w1 =
    (Resolved [[("id", JNum (next_id tb))]],
     set_store
       (<[tableName k :=
            mkTable (rows tb ++ [("id", JNum (next_id tb))
                                 :: fields_of y ++ [("location_id", JNum location_id)]])
                    (next_id tb + 1)]> (store w1))
       (set_faults (tail (faults w1)) w1)).
Proof.
  intros Hc Hf Ht. apply construct_shape in Hc as [Hk _].
  unfold save. rewrite client_query_accepted by done.
  by rewrite (insert_record k y location_id (store w1) tb Hk Ht).
Qed.

(** *** A [fetch] whose provider answers *)

Lemma summarize_ok k data x w :
  item_ok k x = true →
  ∃ y, summarize k data x w = (Resolved y, snd (save k y (id data) (tick w)))
       ∧ keys y = fields k.
Proof.
  intros Hx. pose proof (construct_run k x w) as Hc. rewrite Hx in Hc.
  exists (built k (host w) (clock (host w) (reads w)) x).
  split; [|by destruct k]. unfold summarize. by rewrite run_bind, Hc.
Qed.


Lemma mapM_summarize_ok k data xs : ∀ w,
  Forall (λ x, item_ok k x = true) xs →
  ∃ ys w', mapM (summarize k data) xs w = (Resolved ys, w')
           ∧ length ys = length xs.
Proof.
  induction xs as [|x xs IH]; intros w Hok.
  - by exists [], w.
  - inversion Hok as [|? ? Hx Hxs]; subst.
    destruct (summarize_ok k data x w Hx) as (y & Hy & _).
    destruct (IH (snd (save k y (id data) (tick w))) Hxs) as (ys & w' & Hys & Hl).
    exists (y :: ys), w'. simpl. rewrite run_bind, Hy, run_bind, Hys.
    split; [done|]. simpl. by rewrite Hl.
Qed.


Lemma items_of_world k body w w2 :
  items_of k body w = (fst (items_of k body w2), w).
Proof.
  destruct k; simpl; rewrite ?run_bind, !prop_peek;
    destruct (nullish body); try done.
  rewrite !prop_peek. by destruct (nullish (peek "daily" body)).
Qed.

Lemma fetch_run k data w body xs :
  http (host w) (request_of k (host w) data) = Some body →
  fst (items_of k body w) = Resolved (JArr xs) →
  fetch k data w =
    match mapM (summarize k data) xs
            (add_call (request_of k (host w) data) (announced k w)) with
    | (Resolved ys, w') => (Resolved (JArr ys), w')
    | (Rejected e, w') =>
        if swallows k then (Resolved JUndefined, add_log (LogError e) w')
        else (Rejected e, w')
    end.
Proof.
  intros Hb Hi.
  set (w0 := add_call (request_of k (host w) data) (announced k w)).
  assert (Hi0 : items_of k body w0 = (Resolved (JArr xs), w0)).
  { by rewrite (items_of_world k body w0 w), Hi. }
  assert (Hget : superagent_get (request_of k (host w) data) (announced k w)
                 = (Resolved body, w0)).
  { unfold superagent_get. replace (host (announced k w)) with (host w)
      by (by destruct k). by rewrite Hb. }
  assert (Hmap : js_map (JArr xs) (summarize k data) w0 =
            match mapM (summarize k data) xs w0 with
            | (Resolved ys, w') => (Resolved (JArr ys), w')
            | (Rejected e, w') => (Rejected e, w')
            end).
  { simpl. rewrite run_bind. by destruct (mapM _ xs w0) as [[]]. }
  clearbody w0.
  destruct k; unfold fetch, Weather_fetch, Events_fetch, Movies_fetch, Yelp_fetch,
    request_of, announced, items_of, swallows in *.
  - rewrite with_host. cbv beta. rewrite run_bind, Hget.
    rewrite run_bind in Hi0.
    destruct (prop "daily" body w0) as [[d|e] w1] eqn:Hd; [|discriminate].
    pose proof (prop_world "daily" body w0) as Hw. rewrite Hd in Hw.
    simpl in Hw. subst w1.
    rewrite run_bind, Hd, run_bind, Hi0, Hmap.
    by destruct (mapM _ xs w0) as [[]].
  - rewrite after_log, with_host. cbv beta. cbn [host add_log].
    rewrite run_bind, Hget, run_bind, Hi0, Hmap.
    by destruct (mapM _ xs w0) as [[]].
  - rewrite after_log, with_host. cbv beta. cbn [host add_log]. unfold catch.
    rewrite run_bind, Hget, run_bind, Hi0, Hmap.
    by destruct (mapM _ xs w0) as [[]].
  - rewrite after_log, with_host. cbv beta. cbn [host add_log]. unfold catch.
    rewrite run_bind, Hget, run_bind, Hi0, Hmap.
    by destruct (mapM _ xs w0) as [[]].
Qed.

Lemma miss_with_records k data w tb ys w' :
  head (faults w) ≠ Some true →
  store w !! tableName k = Some tb →
  batch (id data) tb = [] →
  fetch k data (add_log (LogText ("Fetching " +:+ fetchingName k))
                  (set_faults (tail (faults w)) w)) = (Resolved (JArr ys), w') →
  sent (snd (getResource k data w)) = sent w ++ [JArr ys]
  ∧ calls (snd (getResource k data w)) = calls w ++ [request_of k (host w) data]
  ∧ store (snd (getResource k data w)) =
      <[tableName k := persist (id data) (tail (faults w)) ys tb]> (store w).
Proof.
  intros Hf Ht Hb E.
  pose proof (getResource_miss k data w tb Hf Ht Hb) as Hm.
  assert (Hsent : sent (snd (getResource k data w)) = sent w ++ [JArr ys]).
  { rewrite Hm, cacheMiss_run, E. cbn [snd].
    pose proof (fetch_same_sent k data
                  (add_log (LogText ("Fetching " +:+ fetchingName k))
                     (set_faults (tail (faults w)) w))) as Hs.
    rewrite E in Hs. simpl in *. by rewrite Hs. }
  split_and!; [done| |].
  - rewrite Hm. exact (cacheMiss_calls k data _).
  - by destruct (miss_answered k data w tb ys Hf Ht Hb Hsent).
Qed.

(** X7. A miss goes through when the provider answers in form: if the
    part of the answer the kind reads is an array of [n] items its
    constructor accepts, the request calls the provider once, answers with
    [n] records of the kind's fields, and has issued one [save] per record
    on the kind's table. *)
Theorem well_formed_answer_is_fetched_saved_and_sent k data w tb body xs :
  head (faults w) ≠ Some true →
  store w !! tableName k = Some tb →
  batch (id data) tb = [] →
  http (host w) (request_of k (host w) data) = Some body →
  fst (items_of k body w) = Resolved (JArr xs) →
  Forall (λ x, item_ok k x = true) xs →
  ∃ ys, length ys = length xs
        ∧ Forall (λ y, keys y = fields k) ys
        ∧ sent (snd (getResource k data w)) = sent w ++ [JArr ys]
        ∧ calls (snd (getResource k data w))
          = calls w ++ [request_of k (host w) data]
        ∧ store (snd (getResource k data w)) =
            <[tableName k := persist (id data) (tail (faults w)) ys tb]> (store w).
Proof.
  intros Hf Ht Hb Hbody Hi Hok.
  set (w1 := add_log (LogText ("Fetching " +:+ fetchingName k))
               (set_faults (tail (faults w)) w)).
  assert (Hi1 : fst (items_of k body w1) = Resolved (JArr xs)).
  { by rewrite (items_of_world k body w1 w). }
  pose proof (fetch_run k data w1 body xs Hbody Hi1) as Hrun.
  destruct (mapM_summarize_ok k data xs
              (add_call (request_of k (host w1) data) (announced k w1)) Hok)
    as (ys & w' & Hmap & Hlen).
  rewrite Hmap in Hrun.
  destruct (miss_with_records k data w tb ys w' Hf Ht Hb Hrun) as (Hs & Hc & Hst).
  exists ys. split_and!; try done.
  by destruct (fetch_store k data w1 ys w' tb Hrun Ht) as (_ & _ & Hk).
Qed.

(** X8. A provider that answers with no items is answered with an empty
    array and leaves the database as it was: nothing records that the
    provider was asked, so the next request for the location is a miss
    again. *)
Theorem empty_answer_is_sent_and_not_remembered k data w tb body :
  head (faults w) ≠ Some true →
  store w !! tableName k = Some tb →
  batch (id data) tb = [] →
  http (host w) (request_of k (host w) data) = Some body →
  fst (items_of k body w) = Resolved (JArr []) →
  sent (snd (getResource k data w)) = sent w ++ [JArr []]
  ∧ store (snd (getResource k data w)) = store w.
Proof.
  intros Hf Ht Hb Hbody Hi.
  set (w1 := add_log (LogText ("Fetching " +:+ fetchingName k))
               (set_faults (tail (faults w)) w)).
  assert (Hi1 : fst (items_of k body w1) = Resolved (JArr [])).
  { by rewrite (items_of_world k body w1 w). }
  pose proof (fetch_run k data w1 body [] Hbody Hi1) as Hrun.
  simpl in Hrun.
  destruct (miss_with_records k data w tb [] _ Hf Ht Hb Hrun) as (Hs & _ & Hst).
  split; [done|]. rewrite Hst. simpl. by apply insert_id.
Qed.

(** *** Kinds that catch inside [fetch] *)

Lemma swallowing_fetch_resolves k data w :
  swallows k = true →
  ∃ v w', fetch k data w = (Resolved v, w')
          ∧ (v = JUndefined ∨ ∃ ys, v = JArr ys).
Proof.
  intros Hk.
  assert (Hcatch : ∀ (m : M Json) w0,
    (∀ v w', m w0 = (Resolved v, w') → ∃ ys, v = JArr ys) →
    ∃ v w', catch m (λ error, console_log (LogError error);; mret JUndefined) w0
            = (Resolved v, w')
            ∧ (v = JUndefined ∨ ∃ ys, v = JArr ys)).
  { intros m w0 Hm. unfold catch.
    destruct (m w0) as [[v|e] w'] eqn:E.
    - exists v, w'. split; [done|]. right. by eapply Hm.
    - eexists _, _. rewrite run_bind. simpl. split; [done|]. by left. }
  assert (Harr : ∀ r name w0 v w',
    (superagent_get r ≫= λ result, prop name result
       ≫= λ items, js_map items (summarize k data)) w0 = (Resolved v, w') →
    ∃ ys, v = JArr ys).
  { intros r name w0 v w' H. resolved_step H. resolved_step H.
    destruct a0; simpl in H; try discriminate.
    resolved_step H. inversion H. by eexists. }
  destruct k; try discriminate; simpl; unfold Movies_fetch, Yelp_fetch;
    rewrite after_log, with_host; apply Hcatch; intros v w'; apply Harr.
Qed.

(** X9. A miss on the movies or the reviews route is always answered,
    whatever the provider does: with the array of records when [fetch] got
    through, with undefined when anything in it threw or rejected. *)
Theorem movies_and_reviews_miss_is_always_answered k data w tb :
  swallows k = true →
  head (faults w) ≠ Some true →
  store w !! tableName k = Some tb →
  batch (id data) tb = [] →
  ∃ v, sent (snd (getResource k data w)) = sent w ++ [v]
       ∧ (v = JUndefined ∨ ∃ ys, v = JArr ys).
Proof.
  intros Hk Hf Ht Hb.
  rewrite (getResource_miss k data w tb Hf Ht Hb), cacheMiss_run.
  set (w1 := add_log _ _).
  pose proof (fetch_same_sent k data w1) as Hs.
  destruct (swallowing_fetch_resolves k data w1 Hk) as (v & w' & E & Hv).
  rewrite E in Hs |- *. simpl in *. exists v. by rewrite Hs.
Qed.


(** *** After an eviction *)

(** X11. The request that finds a stale batch deletes it and answers
    nothing; the provider is called by the next request for the location,
    which finds no rows. *)
Theorem request_after_an_eviction_calls_the_provider k data w tb r rest c w2 :
  head (faults w) ≠ Some true →
  store w !! tableName k = Some tb →
  batch (id data) tb = r :: rest →
  to_number (field "created_at" r) = Some c →
  timeouts k < clock (host w) (reads w) - c →
  head (tail (faults w)) ≠ Some true →
  store w2 = store (snd (getResource k data w)) →
  head (faults w2) ≠ Some true →
  sent (snd (getResource k data w)) = sent w
  ∧ calls (snd (getResource k data w)) = calls w
  ∧ calls (snd (getResource k data w2)) = calls w2 ++ [request_of k (host w2) data].
Proof.
  intros Hf Ht Hb Hc Hage Hd Hst Hf2.
  rewrite (getResource_stale k data w tb r rest Hf Ht Hb
             (js_gt_stale _ _ _ _ Hc Hage)) in Hst |- *.
  cbn [snd] in *. rewrite deleteByLocationId_sent, deleteByLocationId_calls.
  split_and!; try done.
  rewrite (delete_batch k data _ tb) in Hst by done. simpl in Hst.
  assert (Ht2 : store w2 !! tableName k = Some (evicted (id data) tb)).
  { rewrite Hst.
    destruct (head (tail (faults w))) as [[]|]; [done|..]; apply lookup_insert_eq. }
  rewrite (getResource_miss k data w2 _ Hf2 Ht2 (batch_evicted _ _)).
  exact (cacheMiss_calls k data _).
Qed.

(** *** The location route *)

Lemma index0_run v w :
  nullish v = false → ∃ g, index0 v w = (Resolved g, w).
Proof.
  destruct v; try discriminate; intros _; simpl; try by eexists.
  destruct s; by eexists.
Qed.

Lemma index0_first v w :
  nullish v = false → index0 v w = (Resolved (first_of v), w).
Proof.
  destruct v; try discriminate; intros _; simpl; try done.
  by destruct s.
Qed.


Lemma new_Location_run text g w :
  new_Location text g w =
    if negb (nullish g) && negb (nullish (peek "geometry" g))
       && negb (nullish (peek "location" (peek "geometry" g)))
    then (Resolved (JObj [("search_query", JStr text);
                          ("formatted_query", peek "formatted_address" g);
                          ("latitude", peek "lat" (peek "location" (peek "geometry" g)));
                          ("longitude", peek "lng" (peek "location" (peek "geometry" g)))]),
          w)
    else (Rejected TypeError, w).
Proof.
  unfold new_Location.
  rewrite run_bind, prop_peek. destruct (nullish g) eqn:Hg; [done|].
  rewrite run_bind, prop_peek, Hg.
  rewrite run_bind, prop_peek.
  destruct (nullish (peek "geometry" g)) eqn:Hgeo; [done|].
  rewrite run_bind, prop_peek.
  destruct (nullish (peek "location" (peek "geometry" g))) eqn:Hloc; [done|].
  rewrite run_bind, prop_peek, Hg.
  rewrite run_bind, prop_peek, Hgeo.
  by rewrite run_bind, prop_peek, Hloc.
Qed.

(** What [Location.fetchLocation] leaves behind, by outcome. *)
Lemma fetchLocation_outcome text w :
  match Location_fetchLocation text w with
  | (Rejected e, w') => store w' = store w ∧ sent w' = sent w
  | (Resolved v, w') =>
      sent w' = sent w
      ∧ ∃ tb fs,
          store w !! "locations" = Some tb
          ∧ map fst fs = location_fields
          ∧ field "search_query" fs = JStr text
          ∧ v = JObj (fs ++ [("id", JNum (next_id tb))])
          ∧ store w' =
              <["locations" := mkTable (rows tb ++ [("id", JNum (next_id tb)) :: fs])
                                       (next_id tb + 1)]> (store w)
  end.
Proof.
  unfold Location_fetchLocation. rewrite with_host, run_bind.
  unfold superagent_get.
  destruct (http (host w) _) as [body|]; [|by simpl].
  rewrite run_bind, prop_peek. destruct (nullish body); [by simpl|].
  rewrite run_bind, prop_peek.
  destruct (nullish (peek "results" body)) eqn:Hr; [by simpl|].
  destruct (falsy _); [by simpl|].
  destruct (index0_run (peek "results" body)
              (add_call {| url := geocode_url (host w) text; authorization := None |} w)
              Hr) as [g Hg].
  rewrite run_bind, Hg, run_bind, new_Location_run.
  destruct (negb (nullish g) && _ && _); [|by simpl].
  rewrite run_bind. unfold Location_save, client_query. cbn [faults store add_call].
  destruct (head (faults w)) as [[]|]; [by simpl|..];
    simpl; destruct (store w !! "locations") as [tb|]; simpl; try done;
    (split; [done|]);
    exists tb, [("search_query", JStr text);
                ("formatted_query", peek "formatted_address" g);
                ("latitude", peek "lat" (peek "location" (peek "geometry" g)));
                ("longitude", peek "lng" (peek "location" (peek "geometry" g)))];
    by split_and!.
Qed.

(** What a resolved [Location.fetchLocation] has done: the location built
    from the first result of the geocoder's answer is in the table under
    the table's next id, and is the value resolved with, the id added. *)
Lemma fetchLocation_resolved text w v w' :
  Location_fetchLocation text w = (Resolved v, w') →
  ∃ body tb,
    http (host w) (mkRequest (geocode_url (host w) text) None) = Some body
    ∧ store w !! "locations" = Some tb
    ∧ v = JObj (located text (first_of (peek "results" body))
                ++ [("id", JNum (next_id tb))])
    ∧ store w' =
        <["locations" :=
            mkTable (rows tb ++ [("id", JNum (next_id tb))
                                 :: located text (first_of (peek "results" body))])
                    (next_id tb + 1)]> (store w)
    ∧ sent w' = sent w.
Proof.
  unfold Location_fetchLocation. rewrite with_host, run_bind.
  unfold superagent_get.
  destruct (http (host w) _) as [body|] eqn:Hb; [|discriminate].
  rewrite run_bind, prop_peek. destruct (nullish body); [discriminate|].
  rewrite run_bind, prop_peek.
  destruct (nullish (peek "results" body)) eqn:Hr; [discriminate|].
  destruct (falsy _); [discriminate|].
  rewrite run_bind, (index0_first _ _ Hr), run_bind, new_Location_run.
  destruct (negb (nullish _) && _ && _); [|discriminate].
  rewrite run_bind. unfold Location_save, client_query. cbn [faults store add_call].
  destruct (head (faults w)) as [[]|]; [discriminate|..];
    simpl; destruct (store w !! "locations") as [tb|]; simpl; try discriminate;
    intros H; inversion H; subst; exists body, tb; by split_and!.
Qed.

Lemma searchCoords_hit text w tb r rest :
  head (faults w) ≠ Some true →
  store w !! "locations" = Some tb →
  found text tb = r :: rest →
  searchCoords text w =
    (Resolved JUndefined,
     add_sent (JObj r)
       (add_log (LogText "Got the data Locations")
          (set_faults (tail (faults w)) w))).
Proof.
  intros Hf Ht Hr. unfold searchCoords, Location_lookup, catch.
  rewrite run_bind. cbn [query]. rewrite client_query_accepted by done.
  simpl. rewrite Ht. simpl. fold (found text tb). rewrite Hr. simpl.
  by destruct w.
Qed.

Lemma searchCoords_miss text w tb :
  head (faults w) ≠ Some true →
  store w !! "locations" = Some tb →
  found text tb = [] →
  searchCoords text w =
    (Resolved JUndefined,
     match Location_fetchLocation text
             (add_log (LogText "Fetching Locations")
                (set_faults (tail (faults w)) w)) with
     | (Resolved v, w') => add_sent v w'
     | (Rejected e, w') => add_log (LogError e) w'
     end).
Proof.
  intros Hf Ht Hr. unfold searchCoords, Location_lookup, catch.
  rewrite run_bind. cbn [query]. rewrite client_query_accepted by done.
  simpl. rewrite Ht. simpl. fold (found text tb). rewrite Hr. simpl.
  rewrite run_bind, after_log. unfold catch. rewrite run_bind.
  replace (set_store (store w) (set_faults (tail (faults w)) w))
    with (set_faults (tail (faults w)) w) by (by destruct w).
  by destruct (Location_fetchLocation text _) as [[v|e] w'].
Qed.

(** X13. A search text that has a row in the locations table is answered
    with the first such row, as it is stored: the geocoder is not called,
    the clock is not read (a location never expires) and the database is
    left as it was. *)
Theorem known_search_text_is_answered_from_the_table text w tb r rest :
  head (faults w) ≠ Some true →
  store w !! "locations" = Some tb →
  found text tb = r :: rest →
  sent (snd (searchCoords text w)) = sent w ++ [JObj r]
  ∧ calls (snd (searchCoords text w)) = calls w
  ∧ reads (snd (searchCoords text w)) = reads w
  ∧ store (snd (searchCoords text w)) = store w.
Proof.
  intros Hf Ht Hr. by rewrite (searchCoords_hit text w tb r rest Hf Ht Hr).
Qed.

(** X14. On a miss the location route stores and answers together or not
    at all.  Either one row is added to the locations table, holding under
    the table's next id the search text and the [formatted_address],
    [geometry.location.lat] and [geometry.location.lng] of the first result
    of the geocoder's answer, and the response is that location with that
    id; or the table is as it was and nothing is sent. *)
Theorem a_location_miss_stores_and_answers_together text w tb :
  head (faults w) ≠ Some true →
  store w !! "locations" = Some tb →
  found text tb = [] →
  (∃ body,
     http (host w) (mkRequest (geocode_url (host w) text) None) = Some body
     ∧ store (snd (searchCoords text w)) =
         <["locations" :=
             mkTable (rows tb ++ [("id", JNum (next_id tb))
                                  :: located text (first_of (peek "results" body))])
                     (next_id tb + 1)]> (store w)
     ∧ sent (snd (searchCoords text w))
       = sent w ++ [JObj (located text (first_of (peek "results" body))
                          ++ [("id", JNum (next_id tb))])])
  ∨ (store (snd (searchCoords text w)) = store w
     ∧ sent (snd (searchCoords text w)) = sent w).
Proof.
  intros Hf Ht Hr. rewrite (searchCoords_miss text w tb Hf Ht Hr). cbn [snd].
  pose proof (fetchLocation_outcome text
                (add_log (LogText "Fetching Locations")
                   (set_faults (tail (faults w)) w))) as Ho.
  destruct (Location_fetchLocation text _) as [[v|e] w'] eqn:E.
  - left. apply fetchLocation_resolved in E
      as (body & tb0 & Hb & Ht0 & -> & Hst & Hs).
    simpl in Hb, Ht0, Hst, Hs. rewrite Ht in Ht0. inversion Ht0; subst tb0.
    exists body. simpl. by rewrite Hs.
  - right. destruct Ho as [Hst Hs]. simpl in *. done.
Qed.

(** X15. Resolving a search text twice: once the miss has been answered,
    the next request for the same text is a hit on the row the miss
    stored.  It is answered with one row of the locations table, for that
    search text and with the id the miss answered with; the geocoder is not
    called again and no second row is written. *)
Theorem a_location_resolved_once_is_found_again text w tb v w2 :
  head (faults w) ≠ Some true →
  store w !! "locations" = Some tb →
  found text tb = [] →
  sent (snd (searchCoords text w)) = sent w ++ [v] →
  store w2 = store (snd (searchCoords text w)) →
  head (faults w2) ≠ Some true →
  ∃ r, sent (snd (searchCoords text w2)) = sent w2 ++ [JObj r]
       ∧ map fst r = "id" :: location_fields
       ∧ field "search_query" r = JStr text
       ∧ field "id" r = field "id" (fields_of v)
       ∧ calls (snd (searchCoords text w2)) = calls w2
       ∧ store (snd (searchCoords text w2)) = store w2.
Proof.
  intros Hf Ht Hr Hsent Hst Hf2.
  rewrite (searchCoords_miss text w tb Hf Ht Hr) in Hsent, Hst. cbn [snd] in *.
  pose proof (fetchLocation_outcome text
                (add_log (LogText "Fetching Locations")
                   (set_faults (tail (faults w)) w))) as Ho.
  destruct (Location_fetchLocation text _) as [[v0|e] w'].
  - destruct Ho as (Hs & tb0 & fs & Ht0 & Hk & Hq & -> & Hst').
    simpl in Ht0, Hst', Hs, Hsent. rewrite Ht in Ht0. inversion Ht0; subst tb0.
    rewrite Hs in Hsent. apply app_inv_head in Hsent. inversion Hsent; subst v.
    exists (("id", JNum (next_id tb)) :: fs).
    simpl in Hst. rewrite Hst' in Hst.
    assert (Ht2 : store w2 !! "locations"
                  = Some (mkTable (rows tb ++ [("id", JNum (next_id tb)) :: fs])
                                  (next_id tb + 1))).
    { rewrite Hst. apply lookup_insert_eq. }
    assert (Hfound : found text (mkTable (rows tb ++ [("id", JNum (next_id tb)) :: fs])
                                         (next_id tb + 1))
                     = [("id", JNum (next_id tb)) :: fs]).
    { unfold found. simpl. rewrite List.filter_app. fold (found text tb).
      rewrite Hr. simpl. unfold matches. simpl. rewrite Hq. simpl.
      by rewrite String.eqb_refl. }
    rewrite (searchCoords_hit text w2 _ _ _ Hf2 Ht2 Hfound).
    split_and!; try done.
    + simpl. by rewrite Hk.
    + simpl. rewrite field_app_not_in; [done|].
      rewrite Hk. by apply (bool_decide_unpack _).
  - destruct Ho as [_ Hs]. simpl in *. rewrite Hs in Hsent.
    apply (f_equal length) in Hsent. rewrite length_app in Hsent.
    simpl in Hsent. lia.
Qed.

(** X16. What the geocoder's answer must look like.  An answer that is
    null or has no [results] (or a null one) makes
    [Location.fetchLocation] reject with a TypeError, not with ['No data'];
    ['No data'] is thrown for every [results] whose [length] is falsy: an
    empty array, but also an empty text or an object without a [length].
    In both cases nothing is stored. *)
Theorem geocoder_answers_that_reject text w body :
  http (host w) (mkRequest (geocode_url (host w) text) None) = Some body →
  (nullish body || nullish (peek "results" body) = true →
   fst (Location_fetchLocation text w) = Rejected TypeError
   ∧ store (snd (Location_fetchLocation text w)) = store w)
  ∧ (nullish body || nullish (peek "results" body) = false →
     falsy (peek "length" (peek "results" body)) = true →
     fst (Location_fetchLocation text w) = Rejected (Thrown (JStr "No data"))
     ∧ store (snd (Location_fetchLocation text w)) = store w).
Proof.
  intros Hb. unfold Location_fetchLocation. rewrite with_host, run_bind.
  unfold superagent_get. rewrite Hb.
  rewrite run_bind, prop_peek. destruct (nullish body) eqn:Hn; simpl.
  { split; [done|discriminate]. }
  rewrite run_bind, prop_peek.
  destruct (nullish (peek "results" body)) eqn:Hr; simpl.
  { split; [done|discriminate]. }
  split; [discriminate|]. intros _ Hl. by rewrite Hl.
Qed.

Lemma searchCoords_miss_store text w tb :
  head (faults w) ≠ Some true →
  store w !! "locations" = Some tb →
  found text tb = [] →
  (∃ tb', store (snd (searchCoords text w)) = <["locations" := tb']> (store w))
  ∨ store (snd (searchCoords text w)) = store w.
Proof.
  intros Hf Ht Hr. rewrite (searchCoords_miss text w tb Hf Ht Hr). cbn [snd].
  pose proof (fetchLocation_outcome text
                (add_log (LogText "Fetching Locations")
                   (set_faults (tail (faults w)) w))) as Ho.
  destruct (Location_fetchLocation text _) as [[v|e] w'].
  - left. destruct Ho as (_ & tb0 & fs & _ & _ & _ & _ & Hst).
    eexists. exact Hst.
  - right. by destruct Ho as [Hst _].
Qed.

(** X17. The location route never touches a resource table: whatever a
    [/location] request does, every table but [locations] is as it was. *)
Theorem the_location_route_touches_only_locations text w t :
  t ≠ "locations" →
  store (snd (searchCoords text w)) !! t = store w !! t.
Proof.
  intros Hne.
  destruct (decide (head (faults w) = Some true)) as [Hf|Hf].
  { unfold searchCoords.
    rewrite (Location_lookup_select_rejected _ w StoreError); simpl;
      by rewrite client_query_refused. }
  destruct (store w !! "locations") as [tb|] eqn:Ht.
  2: { unfold searchCoords.
       assert (Hq : client_query (Select "locations" "search_query" (JStr text)) w
                    = (Rejected StoreError, set_faults (tail (faults w)) w)).
       { rewrite client_query_accepted by done. simpl. by rewrite Ht. }
       rewrite (Location_lookup_select_rejected _ w StoreError); simpl;
         by rewrite Hq. }
  destruct (found text tb) as [|r rest] eqn:Hr.
  - destruct (searchCoords_miss_store text w tb Hf Ht Hr) as [[tb' Hst] | Hst];
      rewrite Hst; [by apply lookup_insert_ne | done].
  - by rewrite (searchCoords_hit text w tb r rest Hf Ht Hr).
Qed.

(** *** Saves nobody waits for *)

Lemma persist_all_refused location_id ys : ∀ fs tb,
  take (length ys) fs = replicate (length ys) true →
  persist location_id fs ys tb = tb.
Proof.
  induction ys as [|y ys IH]; intros fs tb Hfs; [done|].
  destruct fs as [|b fs]; [discriminate|].
  simpl in Hfs. inversion Hfs; subst. simpl. by apply IH.
Qed.

(** X18. The answer of a miss does not wait for the saves: when the store
    refuses every [save] of the batch, the request is answered with the
    records all the same, and nothing of them is in the table. *)
Theorem refused_saves_do_not_reach_the_answer k data w tb ys :
  head (faults w) ≠ Some true →
  store w !! tableName k = Some tb →
  batch (id data) tb = [] →
  sent (snd (getResource k data w)) = sent w ++ [JArr ys] →
  take (length ys) (tail (faults w)) = replicate (length ys) true →
  store (snd (getResource k data w)) = store w.
Proof.
  intros Hf Ht Hb Hsent Hfs.
  destruct (miss_answered k data w tb ys Hf Ht Hb Hsent) as [Hst _].
  rewrite Hst, persist_all_refused by done. by apply insert_id.
Qed.

(** ** The further properties on the sample data *)

Lemma only_its_own_table_witness :
  store (snd (getResource Weather seattle (w_cached (t0 - 20000)))) !! "locations"
  = store (w_cached (t0 - 20000)) !! "locations".
Proof.
  apply (a_request_touches_only_its_own_table Weather seattle
           (w_cached (t0 - 20000)) "locations").
  discriminate.
Defined.

Lemma removes_one_location_witness :
  ∃ tb', store (snd (deleteByLocationId "weathers" 7 (w_cached t0)))
           = <["weathers" := tb']> (store (w_cached t0))
         ∧ next_id tb' = next_id (cached_table t0)
         ∧ batch 7 tb' = []
         ∧ ∀ other, other ≠ 7 → batch other tb' = batch other (cached_table t0).
Proof.
  apply (deleteByLocationId_removes_one_location "weathers" 7 (w_cached t0)
           (cached_table t0)).
  - discriminate.
  - reflexivity.
Defined.

Lemma save_by_key_witness :
  save Weather (clear_record t0) 7 (tick w_empty) =
    (Resolved [[("id", JNum (next_id empty_table))]],
     set_store
       (<[tableName Weather :=
            mkTable (rows empty_table
                     ++ [("id", JNum (next_id empty_table))
                         :: fields_of (clear_record t0) ++ [("location_id", JNum 7)]])
                    (next_id empty_table + 1)]> (store (tick w_empty)))
       (set_faults (tail (faults (tick w_empty))) (tick w_empty))).
Proof.
  apply (accepted_save_stores_each_value_under_its_key Weather clear_day
           (clear_record t0) w_empty (tick w_empty) 7 empty_table).
  - reflexivity.
  - discriminate.
  - reflexivity.
Defined.

Lemma well_formed_answer_witness :
  ∃ ys, length ys = length [clear_day]
        ∧ Forall (λ y, keys y = fields Weather) ys
        ∧ sent (snd (getResource Weather seattle w_empty)) = sent w_empty ++ [JArr ys]
        ∧ calls (snd (getResource Weather seattle w_empty))
          = calls w_empty ++ [request_of Weather (host w_empty) seattle]
        ∧ store (snd (getResource Weather seattle w_empty)) =
            <[tableName Weather :=
                persist (id seattle) (tail (faults w_empty)) ys empty_table]>
              (store w_empty).
Proof.
  apply (well_formed_answer_is_fetched_saved_and_sent Weather seattle w_empty
           empty_table forecast_body [clear_day]).
  - discriminate.
  - reflexivity.
  - reflexivity.
  - reflexivity.
  - reflexivity.
  - repeat constructor.
Defined.

Lemma empty_answer_witness :
  sent (snd (getResource Events seattle w_busy)) = sent w_busy ++ [JArr []]
  ∧ store (snd (getResource Events seattle w_busy)) = store w_busy.
Proof.
  apply (empty_answer_is_sent_and_not_remembered Events seattle w_busy empty_table
           (JObj [("events", JArr [])])).
  - discriminate.
  - reflexivity.
  - reflexivity.
  - reflexivity.
  - reflexivity.
Defined.

Lemma always_answered_witness :
  ∃ v, sent (snd (getResource Yelp seattle w_empty)) = sent w_empty ++ [v]
       ∧ (v = JUndefined ∨ ∃ ys, v = JArr ys).
Proof.
  apply (movies_and_reviews_miss_is_always_answered Yelp seattle w_empty empty_table).
  - reflexivity.
  - discriminate.
  - reflexivity.
  - reflexivity.
Defined.


(** The partial batch, evaluated: one row of three days is in the table,
    the route has logged the TypeError and sent nothing. *)
Example partial_batch_on_the_weather_route :
  (rows <$> store (snd (getWeather portland w_busy)) !! "weathers")
  = Some [[("id", JNum 1); ("forecast", JStr "Clear");
           ("time", JStr "Mon Jan 01 2024"); ("created_at", JNum t0);
           ("location_id", JNum 8)]]
  ∧ sent (snd (getWeather portland w_busy)) = []
  ∧ console (snd (getWeather portland w_busy))
    = [LogText "Fetching Weather"; LogError TypeError].
Proof. by vm_compute. Qed.

Lemma after_eviction_witness :
  sent (snd (getResource Weather seattle (w_cached (t0 - 20000))))
    = sent (w_cached (t0 - 20000))
  ∧ calls (snd (getResource Weather seattle (w_cached (t0 - 20000))))
    = calls (w_cached (t0 - 20000))
  ∧ calls (snd (getResource Weather seattle
                  (snd (getResource Weather seattle (w_cached (t0 - 20000))))))
    = calls (snd (getResource Weather seattle (w_cached (t0 - 20000))))
      ++ [request_of Weather
            (host (snd (getResource Weather seattle (w_cached (t0 - 20000)))))
            seattle].
Proof.
  apply (request_after_an_eviction_calls_the_provider Weather seattle
           (w_cached (t0 - 20000)) (cached_table (t0 - 20000))
           (clear_row (t0 - 20000)) [] (t0 - 20000)
           (snd (getResource Weather seattle (w_cached (t0 - 20000))))).
  - discriminate.
  - reflexivity.
  - reflexivity.
  - reflexivity.
  - vm_compute. reflexivity.
  - discriminate.
  - reflexivity.
  - discriminate.
Defined.

Lemma known_search_text_witness :
  sent (snd (searchCoords "seattle" w_located)) = sent w_located ++ [JObj seattle_row]
  ∧ calls (snd (searchCoords "seattle" w_located)) = calls w_located
  ∧ reads (snd (searchCoords "seattle" w_located)) = reads w_located
  ∧ store (snd (searchCoords "seattle" w_located)) = store w_located.
Proof.
  apply (known_search_text_is_answered_from_the_table "seattle" w_located
           (mkTable [seattle_row] 8) seattle_row []).
  - discriminate.
  - reflexivity.
  - reflexivity.
Defined.

Lemma location_miss_witness :
  (∃ body,
     http (host w_busy) (mkRequest (geocode_url (host w_busy) "seattle") None)
       = Some body
     ∧ store (snd (searchCoords "seattle" w_busy)) =
         <["locations" :=
             mkTable (rows empty_table
                      ++ [("id", JNum (next_id empty_table))
                          :: located "seattle" (first_of (peek "results" body))])
                     (next_id empty_table + 1)]> (store w_busy)
     ∧ sent (snd (searchCoords "seattle" w_busy))
       = sent w_busy ++ [JObj (located "seattle" (first_of (peek "results" body))
                               ++ [("id", JNum (next_id empty_table))])])
  ∨ (store (snd (searchCoords "seattle" w_busy)) = store w_busy
     ∧ sent (snd (searchCoords "seattle" w_busy)) = sent w_busy).
Proof.
  apply (a_location_miss_stores_and_answers_together "seattle" w_busy empty_table).
  - discriminate.
  - reflexivity.
  - reflexivity.
Defined.

(** The miss of X14, evaluated: the row stored and the location sent. *)
Example seattle_is_stored_and_sent :
  (rows <$> store (snd (searchCoords "seattle" w_busy)) !! "locations")
  = Some [("id", JNum 1) :: seattle_fields]
  ∧ sent (snd (searchCoords "seattle" w_busy))
    = [JObj (seattle_fields ++ [("id", JNum 1)])].
Proof. by vm_compute. Qed.

Lemma found_again_witness :
  ∃ r, sent (snd (searchCoords "seattle" (snd (searchCoords "seattle" w_busy))))
       = sent (snd (searchCoords "seattle" w_busy)) ++ [JObj r]
       ∧ map fst r = "id" :: location_fields
       ∧ field "search_query" r = JStr "seattle"
       ∧ field "id" r
         = field "id" (fields_of (JObj (seattle_fields ++ [("id", JNum 1)])))
       ∧ calls (snd (searchCoords "seattle" (snd (searchCoords "seattle" w_busy))))
         = calls (snd (searchCoords "seattle" w_busy))
       ∧ store (snd (searchCoords "seattle" (snd (searchCoords "seattle" w_busy))))
         = store (snd (searchCoords "seattle" w_busy)).
Proof.
  apply (a_location_resolved_once_is_found_again "seattle" w_busy empty_table
           (JObj (seattle_fields ++ [("id", JNum 1)]))
           (snd (searchCoords "seattle" w_busy))).
  - discriminate.
  - reflexivity.
  - reflexivity.
  - reflexivity.
  - reflexivity.
  - discriminate.
Defined.

Lemma geocoder_rejects_witness :
  (nullish (JObj [("error_message", JStr "denied")])
   || nullish (peek "results" (JObj [("error_message", JStr "denied")])) = true →
   fst (Location_fetchLocation "nowhere" w_busy) = Rejected TypeError
   ∧ store (snd (Location_fetchLocation "nowhere" w_busy)) = store w_busy)
  ∧ (nullish (JObj [("error_message", JStr "denied")])
     || nullish (peek "results" (JObj [("error_message", JStr "denied")])) = false →
     falsy (peek "length" (peek "results" (JObj [("error_message", JStr "denied")])))
       = true →
     fst (Location_fetchLocation "nowhere" w_busy) = Rejected (Thrown (JStr "No data"))
     ∧ store (snd (Location_fetchLocation "nowhere" w_busy)) = store w_busy).
Proof.
  apply (geocoder_answers_that_reject "nowhere" w_busy
           (JObj [("error_message", JStr "denied")])).
  reflexivity.
Defined.

(** Both ways of X16, evaluated. *)
Example geocoder_rejections :
  fst (Location_fetchLocation "nowhere" w_busy) = Rejected TypeError
  ∧ fst (Location_fetchLocation "@@invalid@@" w_empty)
    = Rejected (Thrown (JStr "No data")).
Proof. by vm_compute. Qed.

Lemma only_locations_witness :
  store (snd (searchCoords "seattle" w_busy)) !! "weathers"
  = store w_busy !! "weathers".
Proof.
  apply (the_location_route_touches_only_locations "seattle" w_busy "weathers").
  discriminate.
Defined.

Lemma refused_saves_witness :
  store (snd (getResource Weather seattle w_deaf)) = store w_deaf.
Proof.
  apply (refused_saves_do_not_reach_the_answer Weather seattle w_deaf empty_table
           [clear_record t0]).
  - discriminate.
  - reflexivity.
  - reflexivity.
  - reflexivity.
  - reflexivity.
Defined.
